(** * telliot: mining orchestration loop and reorg-safe dispute tracker

    A shallow embedding of [ops/miningManager.go] (the [MiningMgr.Start] loop)
    and of the dispute tracker ([Dispute.Start], [Dispute.removePending],
    [Dispute.addValTellor]) together with the properties their specification
    states about them.

    Conventions.
    - Go [error] values are [option string]: [None] is [nil].
    - [big.Int] values are [Z]; [int64] and [uint64] are [Z] with the
      wrap-around written out.
    - [float64] is [spec_float] at precision 53, exponent bound 1024.
    - [time.Time] is [Z], nanoseconds since the Unix epoch; [time.Duration] is
      [Z] nanoseconds.
    - Goroutines are tasks of a labelled transition system; the scheduler picks
      the label. *)

From Stdlib Require Import ZArith Floats.SpecFloat.
From stdpp Require Import base tactics option list sorting gmap strings pretty.

Local Open Scope Z_scope.

(** ** Models of the Go libraries the code calls *)

Module GoLib.

(** [error] *)
Definition error := option string.

(** [errors.Wrap] of github.com/pkg/errors: "If err is nil, Wrap returns nil." *)
Definition Wrap (err : error) (message : string) : error :=
  match err with
  | None => None
  | Some cause => Some (message +:+ ": " +:+ cause)
  end.

(** [int64(x)] for an integer [x]: two's complement wrap-around. *)
Definition int64 (x : Z) : Z := (x + 2 ^ 63) mod 2 ^ 64 - 2 ^ 63.

(** [uint64(x)] *)
Definition uint64 (x : Z) : Z := x mod 2 ^ 64.

(** [math.MaxInt64] *)
Definition MaxInt64 : Z := 2 ^ 63 - 1.

(** [Int64] of math/big on a [big.Int] pointer:
    [v := int64(low64(x.abs)); if x.neg { v = -v }]. *)
Definition Int64 (x : Z) : Z :=
  let v := int64 (Z.land (Z.abs x) (Z.ones 64)) in
  if x <? 0 then int64 (- v) else v.

(** [float64(i)] for an [int64] [i]: round to nearest, ties to even. *)
Definition float64 (i : Z) : spec_float := binary_normalize 53 1024 i 0 false.

(** [time.Second], [time.Minute] *)
Definition Second : Z := 1000000000.
Definition Minute : Z := 60 * Second.

(** [timestamp.FromTime] of prometheus:
    [t.Unix()*1000 + int64(t.Nanosecond())/int64(time.Millisecond)]. *)
Definition FromTime (t : Z) : Z := (t / Second) * 1000 + (t mod Second) / 1000000.

(** [labels.Label] and [labels.Labels] of prometheus. *)
Record Label := mkLabel { Name : string; Value : string }.

#[global] Instance Label_eq_dec : EqDecision Label.
Proof. solve_decision. Defined.

Definition Labels := list Label.

(** [Labels.Less(i, j)]: [ls[i].Name < ls[j].Name], the bytewise order of Go
    strings. *)
Definition Less (a b : Label) : bool := String.ltb (Name a) (Name b).

(** [sort.Sort] on the slices sorted here, of three and of four labels, runs
    [insertionSort] (so it does on every slice too short for its other passes):
    [for i := a+1; i < b; i++ { for j := i; j > a && Less(j, j-1); j-- { Swap(j, j-1) } }].
    [sift x acc] is the inner loop: [acc] is the already sorted prefix
    [data[a..i)] held backwards (its head is [data[i-1]]), [x] is [data[i]]. *)
Fixpoint sift (x : Label) (acc : list Label) : list Label :=
  match acc with
  | [] => [x]
  | y :: rest => if Less x y then y :: sift x rest else x :: y :: rest
  end.

Definition insertionSort (data : Labels) : Labels :=
  rev (fold_left (fun acc x => sift x acc) data []).

Definition Sort := insertionSort.

(** The order [sort.Sort] establishes: no element is [Less] than an earlier one. *)
Definition NameLe (a b : Label) : Prop := Less b a = false.

(** A label set names each label once: equal names mean equal labels. *)
Definition LabelSet (ls : Labels) : Prop :=
  ∀ a b, a ∈ ls → b ∈ ls → Name a = Name b → a = b.

End GoLib.

(** ** The mining orchestration loop: [MiningMgr.Start] *)

Module MiningMgr.
Import GoLib.

Section Loop.
(** [pow.MiningChallenge] and the type of a nonce, opaque to the loop. *)
Context {Challenge Nonce : Type}.

(** [pow.Work] and [pow.Result]; the channels carry pointers, [None] is [nil]. *)
Record Work := mkWork { wChallenge : Challenge; wStart : Z; wN : Z }.
Record Result := mkResult { rWork : Work; rNonce : Nonce }.

(** The collaborators the loop calls: the answer of the n-th
    [tasker.PullUpdates()] and the n-th raw 64-bit output of the source
    behind [math/rand]; [cfgErr] is the error of [config.GetConfig()]. *)
Record Env := mkEnv {
  cfgErr : error;
  PullUpdates : nat → option Challenge;
  randUint64 : nat → Z
}.

(** [rand.Int63()]: [int64(rng.Uint64() & rngMask)], [rngMask = 1<<63 - 1]. *)
Definition Int63 (raw : Z) : Z := int64 (Z.land raw (Z.ones 63)).

(** What the [select] of the loop receives. *)
Inductive Recv :=
| exitCh                          (* <-mgr.exitCh *)
| output (result : option Result) (* result := <-output *)
| tickerC.                        (* <-ticker.C *)

(** What the goroutine does, in order, interleaved with what it received. A
    send on [input] is recorded when the pool has taken it. *)
Inductive Obs :=
| Got (r : Recv)
| Pushed (w : option Work)                   (* input <- w *)
| HandleSolution (c : Challenge) (nonce : Nonce)
| Fatal (err : string)                       (* log.Fatal(err) *)
| Returned.

Record Mgr := mkMgr {
  Running : bool;
  pulls : nat;        (* calls of PullUpdates so far *)
  draws : nat;        (* calls of rand.Int63 so far *)
  trace : list Obs;
  finished : bool     (* the goroutine has returned, or the process died *)
}.

Definition emit (o : Obs) (m : Mgr) : Mgr :=
  mkMgr (Running m) (pulls m) (draws m) (trace m ++ [o]) (finished m).

(** The closure [sendWork]. *)
Definition sendWork (env : Env) (m : Mgr) : Mgr :=
  let challenge := PullUpdates env (pulls m) in
  let m := mkMgr (Running m) (S (pulls m)) (draws m) (trace m) (finished m) in
  match challenge with
  | None => m
  | Some c =>
      let start := uint64 (Int63 (randUint64 env (draws m))) in
      let m := mkMgr (Running m) (pulls m) (S (draws m)) (trace m) (finished m) in
      emit (Pushed (Some (mkWork c start MaxInt64))) m
  end.

(** One iteration of [for { select { ... } }]. *)
Definition iteration (env : Env) (r : Recv) (m : Mgr) : Mgr :=
  let m := emit (Got r) m in
  match r with
  | exitCh => emit (Pushed None) m
  | output None =>
      emit Returned (mkMgr false (pulls m) (draws m) (trace m) true)
  | output (Some result) =>
      emit (HandleSolution (wChallenge (rWork result)) (rNonce result)) m
  | tickerC => sendWork env m
  end.

Fixpoint loop (env : Env) (rs : list Recv) (m : Mgr) : Mgr :=
  match rs with
  | [] => m
  | r :: rs' => if finished m then m else loop env rs' (iteration env r m)
  end.

(** A freshly created manager: [Running: false]. *)
Definition CreateMiningManager : Mgr := mkMgr false 0 0 [] false.

(** The goroutine of [Start], run on the receptions [rs] of its [select]. *)
Definition Start (env : Env) (rs : list Recv) (mgr : Mgr) : Mgr :=
  match cfgErr env with
  | Some err => emit (Fatal err) (mkMgr (Running mgr) (pulls mgr) (draws mgr) (trace mgr) true)
  | None => loop env rs (sendWork env mgr)
  end.

(** The projections of a trace the properties speak about. *)
Definition pushed (t : list Obs) : list (option Work) :=
  omap (λ o, match o with Pushed w => Some w | _ => None end) t.

Definition submits (t : list Obs) : list (Challenge * Nonce) :=
  omap (λ o, match o with HandleSolution c n => Some (c, n) | _ => None end) t.

(** The non-nil results of [rs] up to the first nil result. *)
Fixpoint solutionsBeforeNil (rs : list Recv) : list (Challenge * Nonce) :=
  match rs with
  | [] => []
  | output None :: _ => []
  | output (Some r) :: rs' => (wChallenge (rWork r), rNonce r) :: solutionsBeforeNil rs'
  | _ :: rs' => solutionsBeforeNil rs'
  end.

Definition nilResultIn (rs : list Recv) : bool :=
  existsb (λ r, match r with output None => true | _ => false end) rs.

(** The non-nil [Work] values pushed. *)
Definition works (t : list Obs) : list Work := omap id (pushed t).

(** Every shutdown signal received is followed at once by the push of a
    nil [Work]. *)
Definition NilAfterExit (t : list Obs) : Prop :=
  ∀ pre post, t = pre ++ Got exitCh :: post → ∃ post', post = Pushed None :: post'.

(** "No Submit after the shutdown signal": in the trace, no
    [HandleSolution] comes after a [Got exitCh]. *)
Definition NoSubmitAfterShutdown (t : list Obs) : Prop :=
  ∀ pre post c n, t = pre ++ Got exitCh :: post → HandleSolution c n ∉ post.

(** The shutdown property as the specification words it: a nil [Work] is
    pushed on the signal, the loop ends exactly on the nil [Result], and no
    Submit follows the signal. *)
Definition ShutdownClaim (env : Env) (rs : list Recv) : Prop :=
  let m := Start env rs CreateMiningManager in
  NilAfterExit (trace m) ∧
  finished m = nilResultIn rs ∧
  NoSubmitAfterShutdown (trace m).

(** What one iteration adds to the trace. *)
Definition reaction (env : Env) (r : Recv) (m : Mgr) : list Obs :=
  Got r ::
  match r with
  | exitCh => [Pushed None]
  | output None => [Returned]
  | output (Some result) => [HandleSolution (wChallenge (rWork result)) (rNonce result)]
  | tickerC =>
      match PullUpdates env (pulls m) with
      | None => []
      | Some c =>
          [Pushed (Some (mkWork c (uint64 (Int63 (randUint64 env (draws m)))) MaxInt64))]
      end
  end.

(** The [k]-th [Work] pushed starts at the [k]-th draw and spans
    [math.MaxInt64]; [n] draws were made. *)
Definition Drawn (env : Env) (t : list Obs) (n : nat) : Prop :=
  length (works t) = n ∧
  ∀ k w, works t !! k = Some w →
         wStart w = Z.land (randUint64 env k) (Z.ones 63) ∧ wN w = MaxInt64.

End Loop.

Arguments Work : clear implicits.
Arguments Result : clear implicits.
Arguments Env : clear implicits.
Arguments Recv : clear implicits.
Arguments Obs : clear implicits.
Arguments Mgr : clear implicits.

(** A run over challenges and nonces that are numbers: no update from the
    tasker; the shutdown signal, then a solution of the pool, then its nil
    [Result]. *)
Definition quietEnv : Env nat := mkEnv None (λ _, None) (λ _, 0).
Definition lateSolution : Result nat nat := mkResult (mkWork 7%nat 0 MaxInt64) 99%nat.
Definition lateRun : list (Recv nat nat) :=
  [exitCh; output (Some lateSolution); output None].

(** *** What a run receives before the loop returns *)

Section Counting.
Context {Challenge Nonce : Type}.

(** The ticks of the ticker, and the shutdown signals, received before the
    first nil [Result]. *)
Fixpoint ticksBeforeNil (rs : list (Recv Challenge Nonce)) : nat :=
  match rs with
  | [] => 0
  | output None :: _ => 0
  | tickerC :: rs' => S (ticksBeforeNil rs')
  | _ :: rs' => ticksBeforeNil rs'
  end.

Fixpoint exitsBeforeNil (rs : list (Recv Challenge Nonce)) : nat :=
  match rs with
  | [] => 0
  | output None :: _ => 0
  | exitCh :: rs' => S (exitsBeforeNil rs')
  | _ :: rs' => exitsBeforeNil rs'
  end.

(** The number of nil [Work] values pushed. *)
Definition nilPushes (t : list (Obs Challenge Nonce)) : nat :=
  length (omap (λ w : option (Work Challenge),
                  match w with None => Some () | Some _ => None end) (pushed t)).

(** The challenges the first [n] calls of [PullUpdates] returned. *)
Definition updates (env : Env Challenge) (n : nat) : list Challenge :=
  omap (PullUpdates env) (seq 0 n).

(** The challenges of the [Work] values pushed are the updates the tasker
    returned, in the order of the calls. *)
Definition Forwarded (env : Env Challenge) (m : Mgr Challenge Nonce) : Prop :=
  wChallenge <$> works (trace m) = updates env (pulls m).

End Counting.

End MiningMgr.

(** ** The dispute tracker: [Dispute.Start], [removePending], [addValTellor] *)

Module Dispute.
Import GoLib.

Definition reorgEventWait : Z := 3 * Minute.

(** [tellor.TellorNonceSubmitted]. The binding declares [RequestId] and
    [Value] as arrays of one fixed length, read at the same index [i]; an
    [Observation] is the pair at one index, [Values] the pairs in index
    order. [TxHash] and [Miner] hold the result of their [String()]. *)
Record Log := mkLog { Removed : bool; TxHash : string }.
Record Observation := mkObservation { RequestId : Z; Value : Z }.
Record TellorNonceSubmitted := mkEvent {
  Miner : string;
  Values : list Observation;
  Raw : Log
}.

(** A sample of the time-series store. *)
Record Sample := mkSample { sLabels : Labels; sT : Z; sV : spec_float }.

(** A call to a collaborator, with what it answered. *)
Inductive Call :=
| CNow (t : Z)                                                (* time.Now() *)
| CAppender                                                   (* tsDB.Appender(ctx) *)
| CAppend (lbls : Labels) (t : Z) (v : spec_float) (err : error)
| CGetValue (id : Z) (t : Z) (v : spec_float) (err : error)   (* psrTellor.GetValue *)
| CCommit (err : error)
| CRollback (err : error).

(** The collaborators. Each answer may depend on all calls made before. *)
Record Env := mkEnv {
  timeNow : list Call → Z;
  tsdbAppend : list Call → Labels → Z → spec_float → error;
  psrGetValue : list Call → Z → Z → spec_float * error;
  tsdbCommit : list Call → list Sample → error;
  tsdbRollback : list Call → error
}.

(** Log lines; those of [level.Debug] are left out. *)
Inductive Level := Info | Error.

(** The store, the calls made so far, the samples of the appender scope that
    is open, and the log lines written. *)
Record World := mkWorld {
  history : list Call;
  db : list Sample;
  scope : list Sample;
  logs : list (Level * string)
}.

(** State passing over [World]. *)
Definition M (A : Type) : Type := World → A * World.

#[global] Instance M_ret : MRet M := λ A a w, (a, w).
#[global] Instance M_bind : MBind M :=
  λ A B f m w, let '(a, w') := m w in f a w'.

Definition record (c : Call) (w : World) : World :=
  mkWorld (history w ++ [c]) (db w) (scope w) (logs w).

Definition writeLog (l : Level) (msg : string) : M unit :=
  λ w, ((), mkWorld (history w) (db w) (scope w) (logs w ++ [(l, msg)])).

Definition Now (env : Env) : M Z :=
  λ w, let t := timeNow env (history w) in (t, record (CNow t) w).

(** [tsDB.Appender]: a new, empty appender scope. *)
Definition Appender : M unit :=
  λ w, ((), record CAppender (mkWorld (history w) (db w) [] (logs w))).

(** [appender.Append]: on success the sample joins the scope. *)
Definition Append (env : Env) (lbls : Labels) (t : Z) (v : spec_float) : M error :=
  λ w,
    let err := tsdbAppend env (history w) lbls t v in
    let w' := record (CAppend lbls t v err) w in
    match err with
    | Some _ => (err, w')
    | None =>
        (err, mkWorld (history w') (db w') (scope w' ++ [mkSample lbls t v]) (logs w'))
    end.

Definition GetValue (env : Env) (id t : Z) : M (spec_float * error) :=
  λ w, let r := psrGetValue env (history w) id t in
       (r, record (CGetValue id t r.1 r.2) w).

(** [appender.Commit]: on success the samples of the scope reach the store;
    on failure none does (the store rolls the scope back itself); the scope
    is closed either way. *)
Definition Commit (env : Env) : M error :=
  λ w,
    let err := tsdbCommit env (history w) (scope w) in
    let w' := record (CCommit err) w in
    match err with
    | Some _ => (err, mkWorld (history w') (db w') [] (logs w'))
    | None => (err, mkWorld (history w') (db w' ++ scope w') [] (logs w'))
    end.

(** [appender.Rollback]: the samples of the scope are dropped. *)
Definition Rollback (env : Env) : M error :=
  λ w,
    let err := tsdbRollback env (history w) in
    let w' := record (CRollback err) w in
    (err, mkWorld (history w') (db w') [] (logs w')).

Definition oracleLabels (id : Z) (miner : string) : Labels :=
  [ mkLabel "__name__" "oracle_value";
    mkLabel "contract" "tellor";
    mkLabel "id" (pretty id);
    mkLabel "miner" miner ].

Definition psrLabels (id : Z) : Labels :=
  [ mkLabel "__name__" "psr_value";
    mkLabel "contract" "tellor";
    mkLabel "id" (pretty id) ].

(** The body of [for i, valAct := range event.Value]; the result is what
    the function returns, [None] after the last observation. [valExp] is
    already a [float64]. *)
Fixpoint appendValues (env : Env) (miner : string) (obs : list Observation) : M error :=
  match obs with
  | [] => mret None
  | o :: rest =>
      now ← Now env;
      let ts := FromTime now in
      let lbls := Sort (oracleLabels (RequestId o) miner) in
      err ← Append env lbls ts (float64 (Int64 (Value o)));
      if err is Some _ then mret (Wrap err "append values to the DB") else
      now ← Now env;
      '(valExp, err) ← GetValue env (Int64 (RequestId o)) (now - reorgEventWait);
      if err is Some _ then
        mret (Wrap err ("getting value from the PSR id:" +:+ pretty (Int64 (RequestId o))))
      else
      let lbls := Sort (psrLabels (RequestId o)) in
      err ← Append env lbls ts valExp;
      if err is Some _ then mret (Wrap err "append values to the DB") else
      appendValues env miner rest
  end.

(** [addValTellor]: the loop, then the deferred function, which reads the
    named result [err]. *)
Definition addValTellor (env : Env) (event : TellorNonceSubmitted) : M error :=
  Appender;;
  err ← appendValues env (Miner event) (Values event);
  match err with
  | Some _ =>
      errR ← Rollback env;
      (if errR is Some _ then writeLog Error "db rollback failed" else mret ());;
      mret err
  | None =>
      errC ← Commit env;
      if errC is Some _ then mret (Wrap err "db append commit failed") else mret err
  end.

(** *** The tracker as a transition system *)

(** The goroutine launched for one event. *)
Inductive Status :=
| Waiting    (* blocked in select { <-ticker.C ; <-ctx.Done() } *)
| Canceled   (* took <-ctx.Done() and returned *)
| Elapsed    (* took <-ticker.C; addValTellor not yet called *)
| Appended   (* addValTellor has returned; removePending not yet called *)
| Finished.

#[global] Instance Status_eq_dec : EqDecision Status.
Proof. solve_decision. Defined.

Record Task := mkTask { tEvent : TellorNonceSubmitted; tStatus : Status }.

(** Where the goroutine of [Start] stands: in one of the two subscribe
    loops, in the [select] of the main loop, or returned. *)
Inductive Loc := Subscribing (initial : bool) | Selecting | Exited.

(** [pendingAppend] maps a hash to the [cancel] function of a task, named by
    the index of the task. [appendLog] lists the tasks that called
    [addValTellor], [waited] the periods of the ticker receptions between
    subscribe attempts. *)
Record Tracker := mkTracker {
  pendingAppend : gmap string nat;
  tasks : list Task;
  closed : bool;          (* self.ctx is cancelled *)
  loc : Loc;
  waited : list Z;
  appendLog : list nat;
  world : World
}.

Definition New (db0 : list Sample) : Tracker :=
  mkTracker ∅ [] false (Subscribing true) [] [] (mkWorld [] db0 [] []).

Definition setPending (p : gmap string nat) (st : Tracker) : Tracker :=
  mkTracker p (tasks st) (closed st) (loc st) (waited st) (appendLog st) (world st).
Definition setTasks (ts : list Task) (st : Tracker) : Tracker :=
  mkTracker (pendingAppend st) ts (closed st) (loc st) (waited st) (appendLog st) (world st).
Definition setLoc (l : Loc) (st : Tracker) : Tracker :=
  mkTracker (pendingAppend st) (tasks st) (closed st) l (waited st) (appendLog st) (world st).
Definition setWorld (w : World) (st : Tracker) : Tracker :=
  mkTracker (pendingAppend st) (tasks st) (closed st) (loc st) (waited st) (appendLog st) w.
Definition logT (l : Level) (msg : string) (st : Tracker) : Tracker :=
  setWorld (writeLog l msg (world st)).2 st.

(** A context is cancelled: a goroutine blocked in its [select] takes
    [<-ctx.Done()]; one that has passed the [select] is not affected. *)
Definition onDone (t : Task) : Task :=
  match tStatus t with
  | Waiting => mkTask (tEvent t) Canceled
  | _ => t
  end.

(** Calling the [cancel] function of task [n]. *)
Definition cancel (n : nat) (st : Tracker) : Tracker :=
  setTasks (alter onDone n (tasks st)) st.

Definition key (event : TellorNonceSubmitted) : string := TxHash (Raw event).

Definition removePending (event : TellorNonceSubmitted) (st : Tracker) : Tracker :=
  match pendingAppend st !! key event with
  | None => logT Error "missing pending TX for removed event" st
  | Some pendingCncl =>
      let st := cancel pendingCncl st in
      setPending (delete (key event) (pendingAppend st)) st
  end.

(** [case event := <-events] of the main loop, up to and including the
    [go] statement. A context derived from a cancelled one is cancelled. *)
Definition receive (event : TellorNonceSubmitted) (st : Tracker) : Tracker :=
  let st := if Removed (Raw event) then removePending event st else st in
  let cncl := length (tasks st) in
  let st := setPending (<[key event := cncl]> (pendingAppend st)) st in
  setTasks (tasks st ++ [mkTask event (if closed st then Canceled else Waiting)]) st.

(** [Stop]: [self.close()] cancels [self.ctx] and every context derived from it. *)
Definition Stop (st : Tracker) : Tracker :=
  mkTracker (pendingAppend st) (onDone <$> tasks st) true (loc st) (waited st)
            (appendLog st) (world st).

Definition setStatus (n : nat) (s : Status) (st : Tracker) : Tracker :=
  setTasks (alter (λ t, mkTask (tEvent t) s) n (tasks st)) st.

(** [case <-ticker.C] of task [n], first half: the call of [addValTellor]
    and the log line for its error. *)
Definition fire (env : Env) (n : nat) (event : TellorNonceSubmitted) (st : Tracker) : Tracker :=
  let '(err, w) := addValTellor env event (world st) in
  let st := setWorld w st in
  let st := if err is Some _ then logT Error "adding value" st else st in
  mkTracker (pendingAppend st) (tasks st) (closed st) (loc st) (waited st)
            (appendLog st ++ [n]) (world st).

(** What the scheduler and the outside world choose. *)
Inductive Step :=
| SubscribeTry (err : error)                (* sub, err = self.newSubTellor(events) *)
| SubErr (err : error)                      (* err := <-sub.Err() *)
| CtxDone                                   (* <-self.ctx.Done() *)
| Deliver (event : TellorNonceSubmitted)    (* event := <-events *)
| Tick (n : nat)                            (* task n: <-ticker.C after reorgEventWait *)
| DoAppend (n : nat)                        (* task n: self.addValTellor(event) *)
| DoRemove (n : nat)                        (* task n: self.removePending(event) *)
| DoStop.                                   (* self.Stop() *)

Definition taskAt (n : nat) (s : Status) (st : Tracker) : option TellorNonceSubmitted :=
  t ← tasks st !! n;
  if decide (tStatus t = s) then Some (tEvent t) else None.

(** One step; [None] when the step is not enabled. In the subscribe loops
    the [select] with [default] returns when the context is cancelled and
    subscribes otherwise; after a failure the loop receives once from the
    one-second ticker. *)
Definition step (env : Env) (s : Step) (st : Tracker) : option Tracker :=
  match s, loc st with
  | DoStop, _ => Some (Stop st)
  | CtxDone, (Subscribing _ | Selecting) =>
      if closed st then Some (setLoc Exited st) else None
  | SubscribeTry err, Subscribing initial =>
      if closed st then None else
      match err with
      | Some _ =>
          let msg := if initial then "initial subscribing to events failed"
                     else "re-subscribing to events failed" in
          let st := logT Error msg st in
          Some (mkTracker (pendingAppend st) (tasks st) (closed st) (loc st)
                          (waited st ++ [Second]) (appendLog st) (world st))
      | None =>
          Some (setLoc Selecting (if initial then st else logT Info "re-subscribed to events" st))
      end
  | SubErr err, Selecting =>
      Some (setLoc (Subscribing false)
              (if err is Some _ then logT Error "subscription error" st else st))
  | Deliver event, Selecting => Some (receive event st)
  | Tick n, _ => _ ← taskAt n Waiting st; Some (setStatus n Elapsed st)
  | DoAppend n, _ =>
      event ← taskAt n Elapsed st; Some (setStatus n Appended (fire env n event st))
  | DoRemove n, _ =>
      event ← taskAt n Appended st; Some (setStatus n Finished (removePending event st))
  | _, _ => None
  end.

Fixpoint run (env : Env) (ss : list Step) (st : Tracker) : option Tracker :=
  match ss with
  | [] => Some st
  | s :: ss' => st' ← step env s st; run env ss' st'
  end.

Definition reachable (env : Env) (db0 : list Sample) (st : Tracker) : Prop :=
  ∃ ss, run env ss (New db0) = Some st.

(** The number of calls of [addValTellor] made by task [n], and by the tasks
    of the events with hash [k]. *)
Definition appendsOf (n : nat) (st : Tracker) : nat :=
  length (filter (λ m, m = n) (appendLog st)).

Definition appendsFor (k : string) (st : Tracker) : nat :=
  length (filter (λ m, key ∘ tEvent <$> tasks st !! m = Some k) (appendLog st)).

(** *** What a call of [addValTellor] leaves in the history *)

Definition oracleSample (miner : string) (o : Observation) (now : Z) : Sample :=
  mkSample (Sort (oracleLabels (RequestId o) miner)) (FromTime now) (float64 (Int64 (Value o))).

Definition psrSample (o : Observation) (now : Z) (valExp : spec_float) : Sample :=
  mkSample (Sort (psrLabels (RequestId o))) (FromTime now) valExp.

Definition oracleAppend (miner : string) (o : Observation) (now : Z) (err : error) : Call :=
  CAppend (Sort (oracleLabels (RequestId o) miner)) (FromTime now)
          (float64 (Int64 (Value o))) err.

Definition psrLookup (o : Observation) (now : Z) (valExp : spec_float) (err : error) : Call :=
  CGetValue (Int64 (RequestId o)) (now - reorgEventWait) valExp err.

Definition psrAppend (o : Observation) (now : Z) (valExp : spec_float) (err : error) : Call :=
  CAppend (Sort (psrLabels (RequestId o))) (FromTime now) valExp err.

(** One pass of the loop without failure: [now1] and [now2] are the two
    readings of the clock, [valExp] the answer of the reference provider. *)
Definition Row : Type := Z * Z * spec_float.

Definition passCalls (miner : string) (o : Observation) (r : Row) : list Call :=
  let '(now1, now2, valExp) := r in
  [ CNow now1; oracleAppend miner o now1 None;
    CNow now2; psrLookup o now2 valExp None; psrAppend o now1 valExp None ].

Definition passSamples (miner : string) (o : Observation) (r : Row) : list Sample :=
  let '(now1, _, valExp) := r in
  [ oracleSample miner o now1; psrSample o now1 valExp ].

Definition callsOf (miner : string) (obs : list Observation) (rows : list Row) : list Call :=
  concat (zip_with (passCalls miner) obs rows).

Definition samplesOf (miner : string) (obs : list Observation) (rows : list Row) : list Sample :=
  concat (zip_with (passSamples miner) obs rows).

(** The calls, the samples put in the scope and the result of the loop over
    [obs]: complete passes, then either the end of [obs] or a pass cut short
    by the first failure. *)
Inductive LoopTrace (miner : string) :
  list Observation → list Call → list Sample → error → Prop :=
| LoopEnd : LoopTrace miner [] [] [] None
| LoopPass o obs r hd sc err :
    LoopTrace miner obs hd sc err →
    LoopTrace miner (o :: obs) (passCalls miner o r ++ hd) (passSamples miner o r ++ sc) err
| LoopFailOracle o obs now e :
    LoopTrace miner (o :: obs)
      [CNow now; oracleAppend miner o now (Some e)] []
      (Wrap (Some e) "append values to the DB")
| LoopFailLookup o obs now1 now2 valExp e :
    LoopTrace miner (o :: obs)
      [CNow now1; oracleAppend miner o now1 None; CNow now2; psrLookup o now2 valExp (Some e)]
      [oracleSample miner o now1]
      (Wrap (Some e) ("getting value from the PSR id:" +:+ pretty (Int64 (RequestId o))))
| LoopFailPsr o obs now1 now2 valExp e :
    LoopTrace miner (o :: obs)
      [CNow now1; oracleAppend miner o now1 None; CNow now2; psrLookup o now2 valExp None;
       psrAppend o now1 valExp (Some e)]
      [oracleSample miner o now1]
      (Wrap (Some e) "append values to the DB").

(** The call [c], made after the calls [h], carries the answer of [env]. *)
Definition answers (env : Env) (h : list Call) (c : Call) : Prop :=
  match c with
  | CNow t => t = timeNow env h
  | CAppender => True
  | CAppend lbls t v err => err = tsdbAppend env h lbls t v
  | CGetValue id t v err => (v, err) = psrGetValue env h id t
  | CCommit err => ∃ sc, err = tsdbCommit env h sc
  | CRollback err => err = tsdbRollback env h
  end.

Fixpoint Answered (env : Env) (h : list Call) (hd : list Call) : Prop :=
  match hd with
  | [] => True
  | c :: hd' => answers env h c ∧ Answered env (h ++ [c]) hd'
  end.

(** A failed append or lookup; a resolution of the scope. *)
Definition failed (c : Call) : bool :=
  match c with
  | CAppend _ _ _ (Some _) | CGetValue _ _ _ (Some _) => true
  | _ => false
  end.

Definition resolves (c : Call) : bool :=
  match c with
  | CCommit _ | CRollback _ => true
  | _ => false
  end.

Definition resolutions (hd : list Call) : nat := length (List.filter resolves hd).

(** An append is made with its labels in the canonical order. *)
Definition canonicalAppend (c : Call) : Prop :=
  match c with
  | CAppend lbls _ _ _ => Sorted NameLe lbls
  | _ => True
  end.

Definition commitFailed (c : Call) : bool :=
  match c with
  | CCommit (Some _) => true
  | _ => false
  end.

(** The two samples of one observation, with the conversion of the value
    written as the wrap-around to 64 signed bits. *)
Definition storedPair (miner : string) (o : Observation) (r : Row) : list Sample :=
  let '(now1, _, valExp) := r in
  [ mkSample (Sort (oracleLabels (RequestId o) miner)) (FromTime now1)
             (float64 (int64 (Value o)));
    mkSample (Sort (psrLabels (RequestId o))) (FromTime now1) valExp ].

(** The store, the reference provider never fail. *)
Definition NoFaults (env : Env) : Prop :=
  (∀ h lbls t v, tsdbAppend env h lbls t v = None) ∧
  (∀ h id t, (psrGetValue env h id t).2 = None) ∧
  (∀ h sc, tsdbCommit env h sc = None).

(** The invariant of the specification as it words it: one pending entry
    per hash, and at most one call of [addValTellor] per hash. *)
Definition WriteOncePerKey (env : Env) (db0 : list Sample) : Prop :=
  ∀ ss st, run env ss (New db0) = Some st →
    (∀ k n1 n2, pendingAppend st !! k = Some n1 → pendingAppend st !! k = Some n2 → n1 = n2) ∧
    ∀ k, (appendsFor k st ≤ 1)%nat.

(** A goroutine has called [addValTellor] once it is past [Elapsed]. *)
Definition fired (s : Status) : nat :=
  match s with
  | Appended | Finished => 1
  | Waiting | Canceled | Elapsed => 0
  end.

(** *** Concrete collaborators and events for the examples *)

(** A clock that advances one millisecond per call, a store that accepts
    everything and a reference provider that answers a hundred times the id. *)
Definition steadyEnv : Env :=
  mkEnv (λ h, 1600000000123456789 + Z.of_nat (length h) * 1000000)
        (λ _ _ _ _, None)
        (λ _ id _, (float64 (100 * id), None))
        (λ _ _, None)
        (λ _, None).

(** The same, but [Commit] fails. *)
Definition commitFailsEnv : Env :=
  mkEnv (timeNow steadyEnv) (tsdbAppend steadyEnv) (psrGetValue steadyEnv)
        (λ _ _, Some "write to WAL: no space left on device")
        (tsdbRollback steadyEnv).

(** The same, but every append to a series of id 2 fails. *)
Definition appendFailsEnv : Env :=
  mkEnv (timeNow steadyEnv)
        (λ _ lbls _ _,
           if bool_decide (mkLabel "id" "2" ∈ lbls) then Some "out of bounds" else None)
        (psrGetValue steadyEnv)
        (tsdbCommit steadyEnv)
        (tsdbRollback steadyEnv).

Definition E1 : TellorNonceSubmitted :=
  mkEvent "0xminer" [mkObservation 1 42] (mkLog false "0xabc").

Definition E1removed : TellorNonceSubmitted :=
  mkEvent "0xminer" [mkObservation 1 42] (mkLog true "0xabc").

Definition E2 : TellorNonceSubmitted :=
  mkEvent "0xminer" [mkObservation 1 42; mkObservation 2 (2 ^ 63)] (mkLog false "0xdef").

Definition emptyWorld : World := mkWorld [] [] [] [].

(** The state a run from [New []] ends in. *)
Definition stateAfter (env : Env) (ss : list Step) : Tracker :=
  default (New []) (run env ss (New [])).

(** Subscribed, [E1] received and waiting. *)
Definition oneWaiting : list Step := [SubscribeTry None; Deliver E1].

(** [E1] received, removed within the window, received again, and the last
    goroutine past its window. *)
Definition afterReorg : list Step :=
  [SubscribeTry None; Deliver E1; Deliver E1removed; Deliver E1; Tick 2; DoAppend 2].

(** A failed first attempt to subscribe, a success, an error of the
    subscription, and [Stop]. *)
Definition stopped : list Step :=
  [SubscribeTry (Some "dial tcp: connection refused"); SubscribeTry None;
   SubErr (Some "EOF"); DoStop; CtxDone].

Definition firedAt (ts : list Task) (n : nat) : nat :=
  from_option (fired ∘ tStatus) 0%nat (ts !! n).

(** The log of appends agrees with the status of every goroutine, and every
    pending entry names a goroutine launched for an event of that hash. *)
Definition Consistent (st : Tracker) : Prop :=
  (∀ n, appendsOf n st = firedAt (tasks st) n) ∧
  (∀ k n, pendingAppend st !! k = Some n →
          ∃ t, tasks st !! n = Some t ∧ key (tEvent t) = k).

(** *** What the store holds after a run *)

(** The event the goroutine [n] was launched for. *)
Definition eventOf (st : Tracker) (n : nat) : option TellorNonceSubmitted :=
  tEvent <$> tasks st !! n.

(** [b] is what one call of [addValTellor] for [ev] leaves in the store:
    nothing, or the two samples of every observation. *)
Definition WholeEvent (ev : TellorNonceSubmitted) (b : list Sample) : Prop :=
  b = [] ∨
  ∃ rows, length rows = length (Values ev) ∧ b = samplesOf (Miner ev) (Values ev) rows.

(** One block per call of [addValTellor], in the order of the calls. *)
Definition WholeEvents (st : Tracker) (blocks : list (list Sample)) : Prop :=
  Forall2 (λ n b, ∃ ev, eventOf st n = Some ev ∧ WholeEvent ev b) (appendLog st) blocks.

(** The order in which a goroutine passes through its states: from
    [Waiting] to [Canceled], or to [Elapsed], [Appended] and [Finished]. *)
Definition later (s s' : Status) : bool :=
  match s, s' with
  | Waiting, _ => true
  | Canceled, Canceled => true
  | Elapsed, (Elapsed | Appended | Finished) => true
  | Appended, (Appended | Finished) => true
  | Finished, Finished => true
  | _, _ => false
  end.

(** Every goroutine of [ts] is in [ts'], for the same event, in the same or
    a later state. *)
Definition Keeps (ts ts' : list Task) : Prop :=
  ∀ (n : nat) t, ts !! n = Some t →
    ∃ t', ts' !! n = Some t' ∧ tEvent t' = tEvent t ∧ later (tStatus t) (tStatus t') = true.

(** No goroutine is blocked in its [select]. *)
Definition NoneWaiting (st : Tracker) : Prop :=
  ∀ (n : nat) t, tasks st !! n = Some t → tStatus t ≠ Waiting.

(** [E1] written, and received once more while its first goroutine has
    not yet called [removePending]. *)
Definition secondArrival : list Step :=
  [SubscribeTry None; Deliver E1; Tick 0; DoAppend 0; Deliver E1].

(** [E1] waiting, [E2] past its window, then [Stop]. *)
Definition stoppedMidway : list Step :=
  [SubscribeTry None; Deliver E1; Deliver E2; Tick 1; DoStop].

(** *** Which events are appended *)

(** A step of a run in which no removed notice arrives and the tracker is
    not stopped. *)
Definition undisturbed (s : Step) : bool :=
  match s with
  | Deliver event => negb (Removed (Raw event))
  | DoStop => false
  | _ => true
  end.

(** The property of the specification as it words it. No removed notice
    arrives and nobody calls [Stop]; then every event received is appended:
    the run can go on until the goroutine of the event has called
    [addValTellor] exactly once, the store holds the two samples of each of
    its observations, and the pending map has no entry for its hash. *)
Definition SurvivorsAppended (env : Env) (db0 : list Sample) : Prop :=
  ∀ ss st n event,
    run env ss (New db0) = Some st → forallb undisturbed ss = true →
    eventOf st n = Some event →
    ∃ ss' st' pre rows post,
      run env ss' st = Some st' ∧ appendsOf n st' = 1%nat ∧
      length rows = length (Values event) ∧
      db (world st') = pre ++ samplesOf (Miner event) (Values event) rows ++ post ∧
      pendingAppend st' !! key event = None.

(** The step [s], taken in [st], cancels the waiting goroutine [n] of
    [event]: it is [Stop], or a call of [removePending] for the hash of the
    event while the pending entry of that hash names [n], made for a removed
    notice or by another goroutine, one that has appended. *)
Definition CancelledBy (s : Step) (st : Tracker) (n : nat)
    (event : TellorNonceSubmitted) : Prop :=
  s = DoStop ∨
  (∃ notice, s = Deliver notice ∧ Removed (Raw notice) = true ∧
             key notice = key event ∧ pendingAppend st !! key event = Some n) ∨
  (∃ m other, s = DoRemove m ∧ m ≠ n ∧ taskAt m Appended st = Some other ∧
              key other = key event ∧ pendingAppend st !! key event = Some n).

(** [E1] received twice, no removed notice, and the first goroutine run to
    its end. *)
Definition sameHashTwice : list Step :=
  [SubscribeTry None; Deliver E1; Deliver E1; Tick 0; DoAppend 0; DoRemove 0].

End Dispute.

(** * Properties *)

(** ** Canonical order of labels *)

Module SortFacts.
Import GoLib.

Lemma string_lt_trans (a b c : string) :
  String.compare a b = Lt → String.compare b c = Lt → String.compare a c = Lt.
Proof.
  revert b c. induction a as [|x a IH]; intros [|y b] [|z c]; simpl; try done.
  unfold Ascii.compare.
  destruct (N.compare_spec (Ascii.N_of_ascii x) (Ascii.N_of_ascii y));
    destruct (N.compare_spec (Ascii.N_of_ascii y) (Ascii.N_of_ascii z));
    destruct (N.compare_spec (Ascii.N_of_ascii x) (Ascii.N_of_ascii z));
    try done; try lia; eauto.
Qed.

Lemma string_compare_refl (a : string) : String.compare a a = Eq.
Proof.
  induction a as [|x a IH]; simpl; [done|].
  unfold Ascii.compare. by rewrite N.compare_refl.
Qed.

Lemma Less_irrefl (a : Label) : Less a a = false.
Proof. unfold Less, String.ltb. by rewrite string_compare_refl. Qed.

Lemma Less_asym (a b : Label) : Less a b = true → Less b a = false.
Proof.
  unfold Less, String.ltb. rewrite (String.compare_antisym (Name a) (Name b)).
  by destruct (String.compare (Name b) (Name a)).
Qed.

Lemma NameLe_total (a b : Label) : NameLe a b ∨ NameLe b a.
Proof.
  unfold NameLe. destruct (Less b a) eqn:E; [right; by apply Less_asym | by left].
Qed.

#[local] Instance NameLe_trans : Transitive NameLe.
Proof.
  intros a b c. unfold NameLe, Less, String.ltb.
  rewrite (String.compare_antisym (Name b) (Name a)).
  rewrite (String.compare_antisym (Name c) (Name b)).
  rewrite (String.compare_antisym (Name c) (Name a)).
  destruct (String.compare (Name a) (Name b)) eqn:Hab;
    destruct (String.compare (Name b) (Name c)) eqn:Hbc; simpl; try done.
  - apply String.compare_eq_iff in Hab. rewrite Hab, Hbc. done.
  - apply String.compare_eq_iff in Hab. rewrite Hab, Hbc. done.
  - apply String.compare_eq_iff in Hbc. rewrite <-Hbc, Hab. done.
  - rewrite (string_lt_trans _ _ _ Hab Hbc). done.
Qed.

Lemma NameLe_antisym (a b : Label) : NameLe a b → NameLe b a → Name a = Name b.
Proof.
  unfold NameLe, Less, String.ltb.
  rewrite (String.compare_antisym (Name b) (Name a)).
  destruct (String.compare (Name a) (Name b)) eqn:E; simpl; try done.
  intros _ _. by apply String.compare_eq_iff.
Qed.

(** The inner loop keeps the elements and the order of the prefix. *)
Lemma sift_perm (x : Label) (acc : list Label) : sift x acc ≡ₚ x :: acc.
Proof.
  induction acc as [|y rest IH]; simpl; [done|].
  destruct (Less x y); [|done]. rewrite IH. apply Permutation_swap.
Qed.

Lemma sift_HdRel (x y : Label) (rest : list Label) :
  Less x y = true → HdRel (flip NameLe) y rest → HdRel (flip NameLe) y (sift x rest).
Proof.
  intros Hxy Hhd. destruct rest as [|z rest]; simpl.
  - constructor. unfold flip, NameLe. by apply Less_asym.
  - destruct (Less x z).
    + constructor. by inversion Hhd.
    + constructor. unfold flip, NameLe. by apply Less_asym.
Qed.

Lemma sift_sorted (x : Label) (acc : list Label) :
  Sorted (flip NameLe) acc → Sorted (flip NameLe) (sift x acc).
Proof.
  induction 1 as [|y rest Hs IH Hhd]; simpl.
  - repeat constructor.
  - destruct (Less x y) eqn:E.
    + constructor; [done|]. by apply sift_HdRel.
    + constructor; [by constructor|]. constructor. done.
Qed.

Lemma fold_sift_perm (data acc : list Label) :
  fold_left (λ acc x, sift x acc) data acc ≡ₚ data ++ acc.
Proof.
  revert acc. induction data as [|x data IH]; intros acc; simpl; [done|].
  rewrite IH, sift_perm. by rewrite Permutation_middle.
Qed.

Lemma fold_sift_sorted (data acc : list Label) :
  Sorted (flip NameLe) acc →
  Sorted (flip NameLe) (fold_left (λ acc x, sift x acc) data acc).
Proof.
  revert acc. induction data as [|x data IH]; intros acc Hs; simpl; [done|].
  by apply IH, sift_sorted.
Qed.

Lemma Sort_perm (data : Labels) : Sort data ≡ₚ data.
Proof.
  unfold Sort, insertionSort. rewrite <-Permutation_rev, fold_sift_perm.
  by rewrite app_nil_r.
Qed.

Lemma Sort_sorted (data : Labels) : Sorted NameLe (Sort data).
Proof.
  unfold Sort, insertionSort. rewrite rev_alt.
  apply (Sorted_reverse (flip NameLe)), fold_sift_sorted. constructor.
Qed.

(** On sorted input no element moves. *)
Lemma fold_sift_fixed (data acc : list Label) :
  Sorted NameLe (rev acc ++ data) →
  fold_left (λ acc x, sift x acc) data acc = rev data ++ acc.
Proof.
  revert acc. induction data as [|x data IH]; intros acc Hs; simpl; [done|].
  assert (sift x acc = x :: acc) as ->.
  { destruct acc as [|y rest]; simpl; [done|].
    apply Sorted_StronglySorted in Hs; [|apply _].
    simpl in Hs. apply StronglySorted_app in Hs as (Hle & _ & _).
    specialize (Hle y x). unfold NameLe in Hle. rewrite Hle; [done|set_solver..]. }
  rewrite IH; [by rewrite <-app_assoc|].
  simpl. by rewrite <-app_assoc.
Qed.

Lemma Sort_fixed (data : Labels) : Sorted NameLe data → Sort data = data.
Proof.
  intros Hs. unfold Sort, insertionSort.
  rewrite fold_sift_fixed by done. by rewrite app_nil_r, rev_involutive.
Qed.

Lemma LabelSet_perm (l1 l2 : Labels) : l1 ≡ₚ l2 → LabelSet l1 → LabelSet l2.
Proof. intros Hp Hl a b Ha Hb. apply Hl; by rewrite Hp. Qed.

Lemma Sort_unique (l1 l2 : Labels) : l1 ≡ₚ l2 → LabelSet l1 → Sort l1 = Sort l2.
Proof.
  intros Hp Hset. apply (Sorted_unique_strong NameLe).
  - intros a b Ha Hb Hab Hba.
    rewrite Sort_perm in Ha. rewrite Sort_perm, <-Hp in Hb.
    apply Hset; [done..|]. by apply NameLe_antisym.
  - apply Sort_sorted.
  - apply Sort_sorted.
  - by rewrite !Sort_perm.
Qed.

End SortFacts.

(** ** The mining orchestration loop *)

Module MiningFacts.
Import GoLib MiningMgr.

Section Loop.
Context {Challenge Nonce : Type}.
Implicit Types (env : Env Challenge) (m : Mgr Challenge Nonce).
Implicit Types (rs : list (Recv Challenge Nonce)) (t : list (Obs Challenge Nonce)).

Lemma Int63_range (raw : Z) :
  uint64 (Int63 raw) = Z.land raw (Z.ones 63) ∧ 0 ≤ Z.land raw (Z.ones 63) < 2 ^ 63.
Proof.
  unfold uint64, Int63, int64. rewrite Z.land_ones by lia.
  pose proof (Z.mod_pos_bound raw (2 ^ 63) ltac:(lia)) as Hb.
  split; [|lia].
  rewrite (Z.mod_small (raw mod 2 ^ 63 + 2 ^ 63)) by lia.
  rewrite Z.mod_small by lia. lia.
Qed.

Lemma trace_sendWork env m :
  trace (sendWork env m) =
    trace m ++
    match PullUpdates env (pulls m) with
    | None => []
    | Some c =>
        [Pushed (Some (mkWork c (uint64 (Int63 (randUint64 env (draws m)))) MaxInt64))]
    end.
Proof. unfold sendWork. destruct (PullUpdates env (pulls m)); simpl; by rewrite ?app_nil_r. Qed.

Lemma finished_sendWork env m : finished (sendWork env m) = finished m.
Proof. unfold sendWork. by destruct (PullUpdates env (pulls m)). Qed.

Lemma submits_sendWork env m : submits (trace (sendWork env m)) = submits (trace m).
Proof.
  rewrite trace_sendWork. unfold submits. rewrite omap_app.
  destruct (PullUpdates env (pulls m)); simpl; by rewrite app_nil_r.
Qed.

Lemma trace_iteration env r m :
  trace (iteration env r m) = trace m ++ reaction env r m.
Proof.
  destruct r as [|[res|]|]; simpl; rewrite <-?app_assoc; try done.
  rewrite trace_sendWork. simpl. by rewrite <-app_assoc.
Qed.

Lemma NilAfterExit_app t new :
  NilAfterExit t → NilAfterExit new → NilAfterExit (t ++ new).
Proof.
  intros Ht Hnew pre post E.
  apply app_eq_app in E as [l [[E1 E2]|[E1 E2]]].
  - destruct l as [|x l]; simpl in E2.
    + by apply (Hnew []).
    + injection E2 as <- ->. destruct (Ht _ _ E1) as [post' ->]. by eexists.
  - by apply (Hnew l).
Qed.

Lemma NilAfterExit_reaction env r m : NilAfterExit (reaction env r m).
Proof.
  intros pre post E. unfold reaction in E.
  destruct r as [|[res|]|]; [| | |destruct (PullUpdates env (pulls m))];
    destruct pre as [|o1 [|o2 [|o3 pre]]]; simplify_eq/=; eauto;
    by destruct pre.
Qed.

Lemma NilAfterExit_loop env rs m :
  NilAfterExit (trace m) → NilAfterExit (trace (loop env rs m)).
Proof.
  revert m. induction rs as [|r rs IH]; intros m H; simpl; [done|].
  destruct (finished m); [done|]. apply IH. rewrite trace_iteration.
  by apply NilAfterExit_app, NilAfterExit_reaction.
Qed.

Lemma loop_finished env rs m : finished m = true → loop env rs m = m.
Proof. intros H. destruct rs; simpl; [done|]. by rewrite H. Qed.

Lemma loop_app env rs1 rs2 m :
  loop env (rs1 ++ rs2) m = loop env rs2 (loop env rs1 m).
Proof.
  revert m. induction rs1 as [|r rs1 IH]; intros m; simpl; [done|].
  destruct (finished m) eqn:E; [by rewrite loop_finished|]. apply IH.
Qed.

Lemma finished_iteration env r m :
  finished m = false →
  finished (iteration env r m) = match r with output None => true | _ => false end.
Proof.
  intros H. destruct r as [|[res|]|]; simpl; try done.
  by rewrite finished_sendWork.
Qed.

Lemma finished_loop env rs m :
  finished m = false → finished (loop env rs m) = nilResultIn rs.
Proof.
  revert m. induction rs as [|r rs IH]; intros m H; simpl; [done|].
  rewrite H. pose proof (finished_iteration env r m H) as Hr.
  destruct r as [|[res|]|]; simpl; try (rewrite IH; done).
  by rewrite loop_finished.
Qed.

Lemma submits_loop env rs m :
  finished m = false →
  submits (trace (loop env rs m)) = submits (trace m) ++ solutionsBeforeNil rs.
Proof.
  revert m. induction rs as [|r rs IH]; intros m H; simpl; [by rewrite app_nil_r|].
  rewrite H. pose proof (finished_iteration env r m H) as Hr.
  destruct r as [|[res|]|].
  - rewrite IH by done. simpl. unfold submits. rewrite !omap_app. simpl.
    by rewrite !app_nil_r.
  - rewrite IH by done. simpl. unfold submits. rewrite !omap_app. simpl.
    by rewrite app_nil_r, <-app_assoc.
  - rewrite loop_finished by done. simpl. unfold submits. rewrite !omap_app. simpl.
    by rewrite !app_nil_r.
  - rewrite IH by done. simpl. rewrite submits_sendWork. simpl.
    unfold submits. rewrite !omap_app. simpl. by rewrite !app_nil_r.
Qed.

Lemma loop_end env rs m :
  finished m = false → finished (loop env rs m) = true →
  Running (loop env rs m) = false ∧
  ∃ pre, trace (loop env rs m) = pre ++ [Got (output None); Returned].
Proof.
  revert m. induction rs as [|r rs IH]; intros m H Hf; simpl in *; [congruence|].
  rewrite H in *. pose proof (finished_iteration env r m H) as Hr.
  destruct r as [|[res|]|]; try (by apply IH).
  rewrite loop_finished by done. simpl. split; [done|].
  exists (trace m). by rewrite <-app_assoc.
Qed.

Lemma works_app t new : works (t ++ new) = works t ++ works new.
Proof. unfold works, pushed. by rewrite !omap_app. Qed.

Lemma Drawn_same env t t' n : works t' = works t → Drawn env t n → Drawn env t' n.
Proof. unfold Drawn. by intros ->. Qed.

Lemma Drawn_sendWork env m :
  Drawn env (trace m) (draws m) →
  Drawn env (trace (sendWork env m)) (draws (sendWork env m)).
Proof.
  intros [Hlen Hk]. unfold Drawn. rewrite trace_sendWork, works_app. unfold sendWork.
  destruct (PullUpdates env (pulls m)) as [c|]; simpl.
  - split; [rewrite length_app; simpl; lia|].
    intros k w Hw. apply lookup_app_Some in Hw as [Hw|[Hge Hw]]; [by apply Hk|].
    apply list_lookup_singleton_Some in Hw as [Hz <-]. simpl.
    assert (k = draws m) as -> by lia.
    split; [apply Int63_range | done].
  - rewrite app_nil_r. by split.
Qed.

Lemma Drawn_iteration env r m :
  Drawn env (trace m) (draws m) →
  Drawn env (trace (iteration env r m)) (draws (iteration env r m)).
Proof.
  intros H. destruct r as [|[res|]|]; simpl.
  - apply (Drawn_same _ (trace m)); [|done].
    rewrite !works_app. simpl. by rewrite !app_nil_r.
  - apply (Drawn_same _ (trace m)); [|done].
    rewrite !works_app. simpl. by rewrite !app_nil_r.
  - apply (Drawn_same _ (trace m)); [|done].
    rewrite !works_app. simpl. by rewrite !app_nil_r.
  - apply Drawn_sendWork. simpl. apply (Drawn_same _ (trace m)); [|done].
    rewrite !works_app. simpl. by rewrite !app_nil_r.
Qed.

Lemma Drawn_loop env rs m :
  Drawn env (trace m) (draws m) →
  Drawn env (trace (loop env rs m)) (draws (loop env rs m)).
Proof.
  revert m. induction rs as [|r rs IH]; intros m H; simpl; [done|].
  destruct (finished m); [done|]. by apply IH, Drawn_iteration.
Qed.

Lemma Drawn_Start env rs :
  let m := Start (Nonce:=Nonce) env rs CreateMiningManager in
  Drawn env (trace m) (draws m).
Proof.
  assert (∀ t, works t = [] → Drawn env t 0) as Hnil.
  { intros t Ht. unfold Drawn. rewrite Ht. split; [done|]. intros k w. by rewrite lookup_nil. }
  unfold Start. destruct (cfgErr env); simpl.
  - by apply Hnil.
  - apply Drawn_loop, Drawn_sendWork. by apply Hnil.
Qed.

(** C7. [sendWork] pushes nothing when the tasker reports no update; on an
    update it pushes exactly one [Work], which carries that challenge, a
    start offset taken from a draw of the random source made in this call
    ([rand.Int63], a value below 2^63), and the range [math.MaxInt64]. Each
    such call makes one draw of its own: over a whole run the k-th [Work]
    pushed starts at the k-th draw. *)
Theorem sendWork_pushes_fresh_work env m :
  match PullUpdates env (pulls m) with
  | None =>
      trace (sendWork env m) = trace m ∧ draws (sendWork env m) = draws m
  | Some c =>
      ∃ start,
        trace (sendWork env m) = trace m ++ [Pushed (Some (mkWork c start MaxInt64))] ∧
        start = Z.land (randUint64 env (draws m)) (Z.ones 63) ∧
        0 ≤ start < 2 ^ 63 ∧
        draws (sendWork env m) = S (draws m)
  end ∧
  ∀ rs, let m' := Start (Nonce:=Nonce) env rs CreateMiningManager in
        Drawn env (trace m') (draws m').
Proof.
  split; [|apply Drawn_Start].
  rewrite trace_sendWork. unfold sendWork.
  destruct (PullUpdates env (pulls m)) as [c|]; simpl.
  - destruct (Int63_range (randUint64 env (draws m))) as [-> Hr]. eauto.
  - by rewrite app_nil_r.
Qed.

(** C6, as the code has it. With a configuration, on every run of the
    loop: each shutdown signal received is followed at once by the push of
    a nil [Work]; the loop has returned exactly when a nil [Result] was
    received, and then [Running] is false and the nil [Result] is the last
    thing received; the solutions submitted after a shutdown signal are
    exactly the non-nil results received after it and before the nil
    [Result], so none is submitted once the nil [Result] has arrived, and
    none at all when the pool delivers no further solution. *)
Theorem shutdown_protocol env rs :
  cfgErr env = None →
  let m := Start (Nonce:=Nonce) env rs CreateMiningManager in
  NilAfterExit (trace m) ∧
  finished m = nilResultIn rs ∧
  (finished m = true →
   Running m = false ∧ ∃ pre, trace m = pre ++ [Got (output None); Returned]) ∧
  (∀ pre post, rs = pre ++ exitCh :: post → nilResultIn pre = false →
     submits (trace m) =
       submits (trace (Start env pre CreateMiningManager)) ++ solutionsBeforeNil post).
Proof.
  intros Hcfg. unfold Start. rewrite Hcfg. simpl.
  assert (finished (sendWork (Nonce:=Nonce) env CreateMiningManager) = false) as H0
    by by rewrite finished_sendWork.
  split_and!.
  - apply NilAfterExit_loop. rewrite trace_sendWork. simpl.
    intros pre post E. destruct (PullUpdates env 0); by destruct pre as [|? [|? ?]].
  - by apply finished_loop.
  - by apply loop_end.
  - intros pre post -> Hpre. rewrite loop_app.
    change (exitCh :: post) with ([exitCh] ++ post). rewrite loop_app.
    rewrite submits_loop.
    + simpl. rewrite finished_loop, Hpre by done. simpl.
      unfold submits. rewrite !omap_app. simpl. by rewrite !app_nil_r.
    + simpl. rewrite finished_loop, Hpre by done. simpl.
      by rewrite finished_loop.
Qed.

End Loop.

(** C6, as stated, fails: after the shutdown signal the loop still submits
    the solution the pool delivers before its nil [Result]. *)
Lemma submit_after_shutdown : ¬ ShutdownClaim quietEnv lateRun.
Proof.
  intros (_ & _ & Hno).
  apply (Hno [] [Pushed None; Got (output (Some lateSolution));
                 HandleSolution 7%nat 99%nat; Got (output None); Returned]
             7%nat 99%nat); [reflexivity|].
  set_solver.
Qed.

(** C6, as the code has it, at the run of the counterexample. *)
Lemma shutdown_protocol_at_late_run :
  cfgErr quietEnv = None ∧
  let m := Start quietEnv lateRun CreateMiningManager in
  NilAfterExit (trace m) ∧
  finished m = nilResultIn lateRun ∧
  (finished m = true →
   Running m = false ∧ ∃ pre, trace m = pre ++ [Got (output None); Returned]) ∧
  (∀ pre post, lateRun = pre ++ exitCh :: post → nilResultIn pre = false →
     submits (trace m) =
       submits (trace (Start quietEnv pre CreateMiningManager)) ++ solutionsBeforeNil post).
Proof.
  split; [reflexivity|].
  apply (shutdown_protocol quietEnv lateRun). reflexivity.
Defined.

End MiningFacts.

(** ** The dispute tracker *)

Module DisputeFacts.
Import GoLib Dispute.

(** Closed goals over the concrete runs are settled by evaluation. *)
Ltac evaluated := vm_compute; reflexivity.

Lemma Answered_app env h a b :
  Answered env h (a ++ b) ↔ Answered env h a ∧ Answered env (h ++ a) b.
Proof.
  revert h. induction a as [|c a IH]; intros h; simpl.
  - rewrite app_nil_r. tauto.
  - rewrite IH, <-app_assoc. simpl. tauto.
Qed.

Lemma appendValues_trace env miner obs w :
  ∃ hd sc,
    history (appendValues env miner obs w).2 = history w ++ hd ∧
    scope (appendValues env miner obs w).2 = scope w ++ sc ∧
    db (appendValues env miner obs w).2 = db w ∧
    logs (appendValues env miner obs w).2 = logs w ∧
    LoopTrace miner obs hd sc (appendValues env miner obs w).1 ∧
    Answered env (history w) hd.
Proof.
  revert w. induction obs as [|o obs IH]; intros w.
  { exists [], []. simpl. rewrite !app_nil_r. split_and!; try done. constructor. }
  cbn [appendValues]. unfold mbind, M_bind, Now, Append, GetValue, mret, M_ret, record.
  cbn [history db scope logs].
  set (now1 := timeNow env (history w)).
  destruct (tsdbAppend env (history w ++ [CNow now1]) _ _ _) as [e|] eqn:E1.
  { exists [CNow now1; oracleAppend miner o now1 (Some e)], [].
    cbn [fst snd history db scope logs]. rewrite <-app_assoc, app_nil_r.
    split_and!; try done. apply LoopFailOracle. }
  cbn [fst snd history db scope logs].
  set (h2 := (history w ++ [CNow now1]) ++ _).
  set (now2 := timeNow env h2).
  destruct (psrGetValue env (h2 ++ [CNow now2]) _ _) as [valExp [e|]] eqn:E2.
  { exists [CNow now1; oracleAppend miner o now1 None; CNow now2; psrLookup o now2 valExp (Some e)],
           [oracleSample miner o now1].
    cbn [fst snd history db scope logs]. subst h2. rewrite <-!app_assoc.
    split_and!; try done. apply LoopFailLookup. }
  cbn [fst snd history db scope logs].
  set (h3 := (h2 ++ [CNow now2]) ++ _).
  destruct (tsdbAppend env h3 _ _ _) as [e|] eqn:E3.
  { exists [CNow now1; oracleAppend miner o now1 None; CNow now2; psrLookup o now2 valExp None;
            psrAppend o now1 valExp (Some e)],
           [oracleSample miner o now1].
    cbn [fst snd history db scope logs]. subst h3 h2. rewrite <-!app_assoc.
    split_and!; try done. apply LoopFailPsr. }
  match goal with |- context [appendValues env miner obs ?w'] => destruct (IH w') as (hd & sc & Hh & Hs & Hd & Hl & Ht & Ha) end.
  exists (passCalls miner o (now1, now2, valExp) ++ hd), (passSamples miner o (now1, now2, valExp) ++ sc).
  cbn [fst snd history db scope logs] in *.
  split_and!.
  - rewrite Hh. subst h3 h2. by rewrite <-!app_assoc.
  - rewrite Hs. by rewrite <-!app_assoc.
  - by rewrite Hd.
  - by rewrite Hl.
  - by apply LoopPass.
  - apply Answered_app. split.
    + unfold passCalls, oracleAppend, psrLookup, psrAppend. cbn [Answered app answers].
      subst h3 h2. by rewrite E1, E2, E3.
    + subst h3 h2. rewrite <-!app_assoc in Ha. exact Ha.
Qed.

Lemma callsOf_cons miner o obs r rows :
  callsOf miner (o :: obs) (r :: rows) = passCalls miner o r ++ callsOf miner obs rows.
Proof. done. Qed.

Lemma samplesOf_cons miner o obs r rows :
  samplesOf miner (o :: obs) (r :: rows) = passSamples miner o r ++ samplesOf miner obs rows.
Proof. done. Qed.

Lemma resolutions_app a b : resolutions (a ++ b) = (resolutions a + resolutions b)%nat.
Proof. unfold resolutions. by rewrite List.filter_app, length_app. Qed.

Lemma passCalls_clean miner o r :
  existsb failed (passCalls miner o r) = false ∧ resolutions (passCalls miner o r) = 0%nat.
Proof. by destruct r as [[now1 now2] valExp]. Qed.

(** What the loop leaves behind: no resolution of the scope; on success
    only complete passes, on failure a failed call at the very end and none
    before. *)
Lemma LoopTrace_shape miner obs hd sc err :
  LoopTrace miner obs hd sc err →
  resolutions hd = 0%nat ∧
  match err with
  | None =>
      existsb failed hd = false ∧
      ∃ rows, length rows = length obs ∧
              hd = callsOf miner obs rows ∧ sc = samplesOf miner obs rows
  | Some _ =>
      ∃ pre f, hd = pre ++ [f] ∧ failed f = true ∧ existsb failed pre = false
  end.
Proof.
  induction 1 as [|o obs r hd sc err _ [IHr IH]|o obs now e|o obs now1 now2 valExp e
                 |o obs now1 now2 valExp e].
  - split; [done|]. split; [done|]. by exists [].
  - destruct (passCalls_clean miner o r) as [Hf Hr].
    split; [by rewrite resolutions_app, Hr, IHr|].
    destruct err as [e|].
    + destruct IH as (pre & f & -> & Hff & Hpre).
      exists (passCalls miner o r ++ pre), f. rewrite app_assoc.
      split_and!; [done..|]. by rewrite existsb_app, Hf, Hpre.
    + destruct IH as (Hno & rows & Hlen & -> & ->).
      split; [by rewrite existsb_app, Hf, Hno|].
      exists (r :: rows). split_and!; [simpl; by rewrite Hlen|done..].
  - split; [done|]. by exists [CNow now], (oracleAppend miner o now (Some e)).
  - split; [done|].
    by exists [CNow now1; oracleAppend miner o now1 None; CNow now2],
              (psrLookup o now2 valExp (Some e)).
  - split; [done|].
    by exists [CNow now1; oracleAppend miner o now1 None; CNow now2; psrLookup o now2 valExp None],
              (psrAppend o now1 valExp (Some e)).
Qed.

Lemma samplesOf_length miner obs rows :
  length rows = length obs → length (samplesOf miner obs rows) = (2 * length obs)%nat.
Proof.
  revert rows. induction obs as [|o obs IH]; intros [|r rows] Hlen; simplify_eq/=; [done|].
  rewrite samplesOf_cons, length_app, IH by done.
  destruct r as [[now1 now2] valExp]. simpl. lia.
Qed.

(** [addValTellor]: the appender is opened, the loop runs, and the deferred
    function resolves the scope by the result of the loop. *)
Lemma addValTellor_trace env event w :
  ∃ hd sc lerr res,
    LoopTrace (Miner event) (Values event) hd sc lerr ∧
    Answered env (history w ++ [CAppender]) hd ∧
    history (addValTellor env event w).2 = history w ++ CAppender :: hd ++ [res] ∧
    scope (addValTellor env event w).2 = [] ∧
    match lerr with
    | Some _ =>
        res = CRollback (tsdbRollback env (history w ++ CAppender :: hd)) ∧
        (addValTellor env event w).1 = lerr ∧
        db (addValTellor env event w).2 = db w
    | None =>
        res = CCommit (tsdbCommit env (history w ++ CAppender :: hd) sc) ∧
        (addValTellor env event w).1 = None ∧
        db (addValTellor env event w).2 =
          if tsdbCommit env (history w ++ CAppender :: hd) sc is Some _
          then db w else db w ++ sc
    end.
Proof.
  unfold addValTellor, mbind, M_bind, Appender. cbn [fst snd].
  set (w1 := record CAppender _).
  destruct (appendValues_trace env (Miner event) (Values event) w1)
    as (hd & sc & Hh & Hs & Hd & Hl & Ht & Ha).
  destruct (appendValues env (Miner event) (Values event) w1) as [lerr w2].
  cbn [fst snd] in *. subst w1. cbn [record history db scope logs] in *.
  rewrite app_nil_l in Hs.
  exists hd, sc, lerr. destruct lerr as [e|].
  - exists (CRollback (tsdbRollback env (history w ++ CAppender :: hd))).
    unfold Rollback, writeLog, mret, M_ret, record. cbn [fst snd history db scope logs].
    rewrite Hh, Hd, <-!app_assoc. simpl.
    destruct (tsdbRollback env (history w ++ CAppender :: hd)); cbn [fst snd history db scope logs];
      rewrite <-?app_assoc; by split_and!.
  - exists (CCommit (tsdbCommit env (history w ++ CAppender :: hd) sc)).
    unfold Commit, mret, M_ret, record. cbn [fst snd history db scope logs].
    rewrite Hh, Hd, Hs, <-!app_assoc. simpl.
    destruct (tsdbCommit env (history w ++ CAppender :: hd) sc); cbn [fst snd history db scope logs];
      rewrite <-?app_assoc; by split_and!.
Qed.

(** C3. Every call of [addValTellor] opens one appender scope and resolves
    it exactly once, as its last call. When an append or the lookup of the
    reference value fails, that failed call is followed by [Rollback] and by
    nothing else, so the remaining observations are abandoned; the store
    keeps no sample of the event and an error is returned. When none fails,
    the calls of all observations are followed by [Commit]. *)
Theorem appender_resolved_once env event w :
  ∃ hd,
    history (addValTellor env event w).2 = history w ++ CAppender :: hd ∧
    resolutions hd = 1%nat ∧
    if existsb failed hd
    then ∃ pre f r,
           hd = pre ++ [f; CRollback r] ∧ failed f = true ∧
           existsb failed pre = false ∧ resolutions pre = 0%nat ∧
           db (addValTellor env event w).2 = db w ∧
           scope (addValTellor env event w).2 = [] ∧
           is_Some (addValTellor env event w).1
    else ∃ rows r,
           hd = callsOf (Miner event) (Values event) rows ++ [CCommit r] ∧
           length rows = length (Values event) ∧
           resolutions (callsOf (Miner event) (Values event) rows) = 0%nat.
Proof.
  destruct (addValTellor_trace env event w) as (hd & sc & lerr & res & Ht & _ & Hh & Hs & Hres).
  apply LoopTrace_shape in Ht as [Hr0 Hshape].
  exists (hd ++ [res]). split; [done|].
  destruct lerr as [e|].
  - destruct Hres as (-> & Herr & Hdb).
    destruct Hshape as (pre & f & -> & Hf & Hpre).
    split; [by rewrite resolutions_app, Hr0|].
    rewrite !existsb_app. simpl. rewrite Hf, Hpre. simpl.
    eexists pre, f, _. rewrite <-app_assoc.
    rewrite resolutions_app in Hr0. rewrite Herr.
    split_and!; [done..|lia|done|done|by eexists].
  - destruct Hres as (-> & Herr & Hdb).
    destruct Hshape as (Hno & rows & Hlen & -> & ->).
    split; [by rewrite resolutions_app, Hr0|].
    rewrite existsb_app, Hno. simpl. by eexists rows, _.
Qed.

Lemma int64_congr (a b : Z) : a mod 2 ^ 64 = b mod 2 ^ 64 → int64 a = int64 b.
Proof.
  intros H. unfold int64.
  by rewrite <-(Zplus_mod_idemp_l a), H, Zplus_mod_idemp_l.
Qed.

Lemma int64_mod (a : Z) : int64 a mod 2 ^ 64 = a mod 2 ^ 64.
Proof.
  unfold int64. rewrite Zminus_mod_idemp_l. f_equal. lia.
Qed.

Lemma int64_range (a : Z) : - 2 ^ 63 ≤ int64 a < 2 ^ 63.
Proof.
  unfold int64. pose proof (Z.mod_pos_bound (a + 2 ^ 63) (2 ^ 64) ltac:(lia)). lia.
Qed.

Lemma int64_small (a : Z) : - 2 ^ 63 ≤ a < 2 ^ 63 → int64 a = a.
Proof. intros H. unfold int64. rewrite Z.mod_small; lia. Qed.

(** [Int64] of math/big is the wrap-around to 64 signed bits. *)
Lemma Int64_int64 (x : Z) : Int64 x = int64 x.
Proof.
  unfold Int64. rewrite Z.land_ones by lia.
  destruct (Z.ltb_spec x 0) as [Hneg|Hpos].
  - apply int64_congr.
    rewrite <-(Z.sub_0_l (int64 _)), <-Zminus_mod_idemp_r, int64_mod, Z.mod_mod by lia.
    rewrite Zminus_mod_idemp_r. f_equal. lia.
  - apply int64_congr. rewrite Z.mod_mod by lia. f_equal. lia.
Qed.


Lemma samplesOf_storedPair miner obs rows :
  samplesOf miner obs rows = concat (zip_with (storedPair miner) obs rows).
Proof.
  unfold samplesOf. f_equal. revert rows.
  induction obs as [|o obs IH]; intros [|[[now1 now2] valExp] rows]; simpl; try done.
  rewrite IH. unfold oracleSample, psrSample. by rewrite Int64_int64.
Qed.

Lemma no_resolution_no_commit hd : resolutions hd = 0%nat → existsb commitFailed hd = false.
Proof.
  unfold resolutions. induction hd as [|c hd IH]; simpl; [done|].
  destruct c; simpl; try done. all: intros; lia.
Qed.

(** C10. [Int64] keeps the low 64 bits of the observed integer, read as a
    signed number, and so returns the integer itself exactly when it lies in
    the int64 range. Whenever a call of [addValTellor] changes the store, it
    adds for each observation, in order, one oracle sample whose value is
    the float64 of that wrapped integer and one reference sample with the
    same timestamp, the one read at the start of the pass. *)
Theorem oracle_value_truncated env event w :
  (∀ x, Int64 x = int64 x ∧ - 2 ^ 63 ≤ Int64 x < 2 ^ 63 ∧
        Int64 x mod 2 ^ 64 = x mod 2 ^ 64 ∧
        (Int64 x = x ↔ - 2 ^ 63 ≤ x < 2 ^ 63)) ∧
  ∃ hd,
    history (addValTellor env event w).2 = history w ++ CAppender :: hd ∧
    if existsb failed hd || existsb commitFailed hd
    then db (addValTellor env event w).2 = db w
    else ∃ rows,
           length rows = length (Values event) ∧
           db (addValTellor env event w).2 =
             db w ++ concat (zip_with (storedPair (Miner event)) (Values event) rows).
Proof.
  split.
  { intros x. rewrite Int64_int64.
    split; [done|]. split; [apply int64_range|]. split; [apply int64_mod|].
    split; [intros <-; apply int64_range | apply int64_small]. }
  destruct (addValTellor_trace env event w) as (hd & sc & lerr & res & Ht & _ & Hh & Hs & Hres).
  apply LoopTrace_shape in Ht as [Hr0 Hshape].
  exists (hd ++ [res]). split; [done|].
  rewrite !existsb_app, (no_resolution_no_commit hd Hr0).
  destruct lerr as [e|].
  - destruct Hres as (-> & Herr & Hdb).
    destruct Hshape as (pre & f & -> & Hf & Hpre).
    rewrite existsb_app. simpl. rewrite Hf, Hpre. done.
  - destruct Hres as (-> & Herr & Hdb).
    destruct Hshape as (Hno & rows & Hlen & -> & ->).
    rewrite Hno, Hdb. simpl.
    destruct (tsdbCommit env _ _); simpl; [done|].
    exists rows. by rewrite samplesOf_storedPair.
Qed.

Lemma Answered_NoFaults env h hd :
  NoFaults env → Answered env h hd → existsb failed hd = false.
Proof.
  intros (Ha & Hg & Hc). revert h.
  induction hd as [|c hd IH]; intros h; simpl; [done|].
  intros [Hans Hrest]. rewrite (IH _ Hrest), orb_false_r.
  destruct c as [| |lbls t v err|id t v err| |]; simpl in *; try done.
  - by rewrite Hans, Ha.
  - pose proof (Hg h id t) as Hn. rewrite <-Hans in Hn. simpl in Hn. by rewrite Hn.
Qed.

(** Without faults [addValTellor] commits the two samples of every
    observation and returns nil. *)
Lemma addValTellor_ok env event w :
  NoFaults env →
  ∃ rows,
    length rows = length (Values event) ∧
    (addValTellor env event w).1 = None ∧
    db (addValTellor env event w).2 =
      db w ++ samplesOf (Miner event) (Values event) rows ∧
    history (addValTellor env event w).2 =
      history w ++ CAppender :: callsOf (Miner event) (Values event) rows ++ [CCommit None] ∧
    Answered env (history w ++ [CAppender]) (callsOf (Miner event) (Values event) rows).
Proof.
  intros Hnf.
  destruct (addValTellor_trace env event w) as (hd & sc & lerr & res & Ht & Ha & Hh & Hs & Hres).
  pose proof (Answered_NoFaults _ _ _ Hnf Ha) as Hclean.
  apply LoopTrace_shape in Ht as [Hr0 Hshape].
  destruct lerr as [e|].
  - destruct Hshape as (pre & f & -> & Hf & Hpre).
    rewrite existsb_app in Hclean. simpl in Hclean. rewrite Hf, Hpre in Hclean. done.
  - destruct Hres as (-> & Herr & Hdb).
    destruct Hshape as (Hno & rows & Hlen & -> & ->).
    destruct Hnf as (_ & _ & Hc). rewrite Hc in *.
    exists rows. by split_and!.
Qed.


(** *** Invariants of the tracker *)

Lemma firedAt_alter (f : Task → Task) (ts : list Task) (m n : nat) :
  (∀ t, fired (tStatus (f t)) = fired (tStatus t)) →
  firedAt (alter f m ts) n = firedAt ts n.
Proof.
  intros Hf. unfold firedAt. destruct (decide (m = n)) as [->|Hne].
  - rewrite list_lookup_alter_eq. destruct (ts !! n); simpl; [apply Hf|done].
  - by rewrite list_lookup_alter_ne.
Qed.

Lemma firedAt_fmap (f : Task → Task) (ts : list Task) (n : nat) :
  (∀ t, fired (tStatus (f t)) = fired (tStatus t)) →
  firedAt (f <$> ts) n = firedAt ts n.
Proof.
  intros Hf. unfold firedAt. rewrite list_lookup_fmap.
  destruct (ts !! n); simpl; [apply Hf|done].
Qed.

Lemma fired_onDone t : fired (tStatus (onDone t)) = fired (tStatus t).
Proof. destruct t as [ev s]. by destruct s. Qed.

Lemma tEvent_onDone t : tEvent (onDone t) = tEvent t.
Proof. destruct t as [ev s]. by destruct s. Qed.

Lemma firedAt_snoc (ts : list Task) (t : Task) (n : nat) :
  fired (tStatus t) = 0%nat → firedAt (ts ++ [t]) n = firedAt ts n.
Proof.
  intros Ht. unfold firedAt. destruct (decide (n < length ts)%nat) as [Hlt|Hge].
  - by rewrite lookup_app_l.
  - rewrite lookup_app_r, (lookup_ge_None_2 ts n) by lia. simpl.
    by destruct (n - length ts)%nat.
Qed.

(** Named tasks stay named, with their event, under a change of status. *)
Lemma named_alter (f : Task → Task) (ts : list Task) (m n : nat) (k : string) :
  (∀ t, tEvent (f t) = tEvent t) →
  (∃ t, ts !! n = Some t ∧ key (tEvent t) = k) →
  ∃ t, alter f m ts !! n = Some t ∧ key (tEvent t) = k.
Proof.
  intros Hf (t & Ht & Hk). destruct (decide (m = n)) as [->|Hne].
  - exists (f t). rewrite list_lookup_alter_eq, Ht. by rewrite Hf.
  - exists t. by rewrite list_lookup_alter_ne.
Qed.

Lemma Consistent_same st st' :
  pendingAppend st' = pendingAppend st → tasks st' = tasks st →
  appendLog st' = appendLog st → Consistent st → Consistent st'.
Proof.
  intros Hp Ht Hl [H1 H2]. unfold Consistent, appendsOf in *. rewrite Hp, Ht, Hl. done.
Qed.

Lemma Consistent_cancel n st : Consistent st → Consistent (cancel n st).
Proof.
  intros [H1 H2]. split.
  - intros m. simpl. rewrite firedAt_alter by apply fired_onDone. apply H1.
  - intros k m Hk. simpl in *. apply named_alter; [apply tEvent_onDone|]. by apply H2.
Qed.

Lemma Consistent_removePending event st :
  Consistent st → Consistent (removePending event st).
Proof.
  intros Hc. unfold removePending.
  destruct (pendingAppend st !! key event) as [n|] eqn:E.
  - destruct (Consistent_cancel n st Hc) as [H1 H2]. split; [done|].
    intros k m Hk. simpl in *. apply lookup_delete_Some in Hk as [_ Hk]. by apply H2.
  - by apply (Consistent_same st).
Qed.

Lemma Consistent_receive event st : Consistent st → Consistent (receive event st).
Proof.
  intros Hc. unfold receive.
  set (st1 := if Removed (Raw event) then removePending event st else st).
  assert (Consistent st1) as [H1 H2].
  { subst st1. destruct (Removed (Raw event)); [by apply Consistent_removePending|done]. }
  split.
  - intros n. simpl. rewrite firedAt_snoc; [apply H1|]. by destruct (closed st1).
  - intros k n Hk. simpl in *. apply lookup_insert_Some in Hk as [[<- <-]|[Hne Hk]].
    + eexists. rewrite lookup_app_r, Nat.sub_diag by lia. done.
    + destruct (H2 _ _ Hk) as (t & Ht & Hkey). exists t. split; [|done].
      by apply lookup_app_l_Some.
Qed.

Lemma taskAt_Some n s st event :
  taskAt n s st = Some event → tasks st !! n = Some (mkTask event s).
Proof.
  unfold taskAt. destruct (tasks st !! n) as [[ev s']|]; simpl; [|done].
  case_decide; [|done]. intros [= <-]. simpl in *. by subst.
Qed.

Lemma appendsOf_setStatus m n s st :
  appendsOf m (setStatus n s st) = appendsOf m st.
Proof. done. Qed.

Lemma Consistent_setStatus n s s' st event :
  taskAt n s st = Some event → fired s' = fired s →
  Consistent st → Consistent (setStatus n s' st).
Proof.
  intros Ht Hf [H1 H2]. apply taskAt_Some in Ht. split.
  - intros m. rewrite appendsOf_setStatus, H1. simpl. unfold firedAt.
    destruct (decide (n = m)) as [->|Hne].
    + rewrite list_lookup_alter_eq, Ht. done.
    + by rewrite list_lookup_alter_ne.
  - intros k m Hk. simpl in *. apply named_alter; [done|]. by apply H2.
Qed.

Lemma Consistent_fire env n event st :
  taskAt n Elapsed st = Some event →
  Consistent st → Consistent (setStatus n Appended (fire env n event st)).
Proof.
  intros Ht [H1 H2]. apply taskAt_Some in Ht.
  assert (tasks (fire env n event st) = tasks st ∧
          pendingAppend (fire env n event st) = pendingAppend st ∧
          appendLog (fire env n event st) = appendLog st ++ [n]) as (Hts & Hp & Hl).
  { unfold fire. destruct (addValTellor env event (world st)) as [[e|] w]; done. }
  split.
  - intros m. unfold appendsOf in *. simpl. rewrite Hl, Hts, filter_app, length_app, H1.
    unfold firedAt. destruct (decide (n = m)) as [->|Hne].
    + rewrite list_lookup_alter_eq, Ht. simpl. rewrite filter_cons_True by done. done.
    + rewrite list_lookup_alter_ne by done. rewrite filter_cons_False by done. simpl. lia.
  - intros k m Hk. simpl in *. rewrite Hts. apply named_alter; [done|].
    rewrite Hp in Hk. by apply H2.
Qed.

Lemma taskAt_cancel n m s st event :
  s ≠ Waiting → taskAt n s st = Some event → taskAt n s (cancel m st) = Some event.
Proof.
  intros Hs Ht. apply taskAt_Some in Ht. unfold taskAt. simpl.
  destruct (decide (m = n)) as [->|Hne].
  - rewrite list_lookup_alter_eq, Ht. simpl. destruct s; simpl; try done; by case_decide.
  - rewrite list_lookup_alter_ne, Ht by done. simpl. by case_decide.
Qed.

Lemma taskAt_removePending n s st event event' :
  s ≠ Waiting → taskAt n s st = Some event →
  taskAt n s (removePending event' st) = Some event.
Proof.
  intros Hs Ht. unfold removePending.
  destruct (pendingAppend st !! key event') as [m|]; [|done].
  by apply (taskAt_cancel n m s st event).
Qed.

Lemma taskAt_setStatus n s s' st event :
  taskAt n s st = Some event → taskAt n s' (setStatus n s' st) = Some event.
Proof.
  intros Ht. apply taskAt_Some in Ht. unfold taskAt. simpl.
  rewrite list_lookup_alter_eq, Ht. simpl. by case_decide.
Qed.

Lemma taskAt_fire env n m s st event event' :
  taskAt n s st = Some event → taskAt n s (fire env m event' st) = Some event.
Proof.
  unfold fire. by destruct (addValTellor env event' (world st)) as [[e|] w].
Qed.

Lemma pending_removePending event st :
  pendingAppend (removePending event st) !! key event = None.
Proof.
  unfold removePending. destruct (pendingAppend st !! key event) as [n|] eqn:E; [|done].
  simpl. apply lookup_delete_eq.
Qed.

Lemma world_removePending event st :
  db (world (removePending event st)) = db (world st) ∧
  history (world (removePending event st)) = history (world st).
Proof. unfold removePending. by destruct (pendingAppend st !! key event). Qed.

Lemma step_Consistent env s st st' :
  Consistent st → step env s st = Some st' → Consistent st'.
Proof.
  intros Hc Hs. destruct s as [err|err| |event|n|n|n|]; unfold step in Hs.
  - destruct (loc st) as [initial| |]; try done. destruct (closed st); [done|].
    destruct err; simplify_eq; [by apply (Consistent_same st)|].
    destruct initial; by apply (Consistent_same st).
  - destruct (loc st); try done. simplify_eq. destruct err; by apply (Consistent_same st).
  - destruct (loc st); try done; destruct (closed st); simplify_eq;
      by apply (Consistent_same st).
  - destruct (loc st); try done. simplify_eq. by apply Consistent_receive.
  - assert (∃ event, taskAt n Waiting st = Some event ∧ st' = setStatus n Elapsed st)
      as (event & Ht & ->).
    { destruct (loc st); destruct (taskAt n Waiting st) eqn:E; simplify_eq/=; eauto. }
    by apply (Consistent_setStatus n Waiting Elapsed st event).
  - assert (∃ event, taskAt n Elapsed st = Some event ∧
                     st' = setStatus n Appended (fire env n event st))
      as (event & Ht & ->).
    { destruct (loc st); destruct (taskAt n Elapsed st) eqn:E; simplify_eq/=; eauto. }
    by apply Consistent_fire.
  - assert (∃ event, taskAt n Appended st = Some event ∧
                     st' = setStatus n Finished (removePending event st))
      as (event & Ht & ->).
    { destruct (loc st); destruct (taskAt n Appended st) eqn:E; simplify_eq/=; eauto. }
    apply (Consistent_setStatus n Appended Finished _ event); [|done|].
    + by apply taskAt_removePending.
    + by apply Consistent_removePending.
  - assert (st' = Stop st) as -> by (destruct (loc st); by simplify_eq).
    destruct Hc as [H1 H2]. split.
    + intros m. simpl. rewrite firedAt_fmap by apply fired_onDone. apply H1.
    + intros k m Hk. simpl in *. destruct (H2 _ _ Hk) as (t & Ht & Hkey).
      exists (onDone t). rewrite list_lookup_fmap, Ht. by rewrite tEvent_onDone.
Qed.

Lemma Consistent_New db0 : Consistent (New db0).
Proof.
  split.
  - intros n. by destruct n.
  - intros k n. simpl. by rewrite lookup_empty.
Qed.

Lemma run_Consistent env ss st st' :
  Consistent st → run env ss st = Some st' → Consistent st'.
Proof.
  revert st. induction ss as [|s ss IH]; intros st Hc Hr; simpl in Hr; [by simplify_eq|].
  destruct (step env s st) as [st1|] eqn:E; simpl in Hr; [|done].
  eapply IH; [|done]. by eapply step_Consistent.
Qed.

Lemma reachable_Consistent env db0 st : reachable env db0 st → Consistent st.
Proof. intros [ss Hr]. eapply run_Consistent; [apply Consistent_New|done]. Qed.

(** A goroutine that took [<-ctx.Done()] stays there. *)
Lemma step_Canceled env s st st' (n : nat) t :
  step env s st = Some st' → tasks st !! n = Some t → tStatus t = Canceled →
  ∃ t', tasks st' !! n = Some t' ∧ tStatus t' = Canceled.
Proof.
  intros Hs Ht Hc.
  assert (∀ m, ∃ t', alter onDone m (tasks st) !! n = Some t' ∧ tStatus t' = Canceled) as Hal.
  { intros m. destruct (decide (m = n)) as [->|Hne].
    - exists (onDone t). rewrite list_lookup_alter_eq, Ht. split; [done|].
      destruct t as [ev s0]. simpl in *. by subst.
    - exists t. by rewrite list_lookup_alter_ne. }
  assert (∀ event, ∃ t', tasks (removePending event st) !! n = Some t' ∧ tStatus t' = Canceled)
    as Hrm.
  { intros event. unfold removePending.
    destruct (pendingAppend st !! key event); simpl; eauto. }
  assert (∀ m s0 s1 st0 t0 event, taskAt m s0 st = Some event → s0 ≠ Canceled →
            tasks st0 !! n = Some t0 → tStatus t0 = Canceled → tasks st0 !! m = tasks st !! m →
            ∃ t', tasks (setStatus m s1 st0) !! n = Some t' ∧ tStatus t' = Canceled) as Hset.
  { intros m s0 s1 st0 t0 event Hm Hne Ht0 Hc0 Heq. apply taskAt_Some in Hm.
    exists t0. simpl. rewrite list_lookup_alter_ne; [done|].
    intros ->. rewrite Heq, Hm in Ht0. simplify_eq/=. }
  destruct s as [err|err| |event|m|m|m|]; unfold step in Hs.
  - destruct (loc st) as [initial| |]; try done. destruct (closed st); [done|].
    destruct err; simplify_eq; [by eauto|]. destruct initial; by eauto.
  - destruct (loc st); try done. simplify_eq. destruct err; by eauto.
  - destruct (loc st); try done; destruct (closed st); simplify_eq; by eauto.
  - destruct (loc st); try done. simplify_eq. unfold receive.
    set (st1 := if Removed (Raw event) then removePending event st else st).
    assert (∃ t', tasks st1 !! n = Some t' ∧ tStatus t' = Canceled) as (t' & Ht' & Hc').
    { subst st1. destruct (Removed (Raw event)); eauto. }
    exists t'. simpl. split; [|done]. by apply lookup_app_l_Some.
  - destruct (loc st); destruct (taskAt m Waiting st) eqn:E; simplify_eq/=;
      by eapply Hset.
  - destruct (loc st); destruct (taskAt m Elapsed st) as [event|] eqn:E; simplify_eq/=;
      (eapply Hset; [done|done| | |]);
      unfold fire; destruct (addValTellor env event (world st)) as [[e|] w]; done.
  - assert (∃ event, taskAt m Appended st = Some event ∧
                     st' = setStatus m Finished (removePending event st))
      as (event & Hm & ->).
    { destruct (loc st); destruct (taskAt m Appended st) eqn:E; simplify_eq/=; eauto. }
    destruct (Hrm event) as (t' & Ht' & Hc').
    exists t'. simpl. rewrite list_lookup_alter_ne; [done|].
    intros ->. apply (taskAt_removePending _ _ _ _ event) in Hm; [|done].
    apply taskAt_Some in Hm. rewrite Hm in Ht'. simplify_eq/=.
  - assert (st' = Stop st) as -> by (destruct (loc st); by simplify_eq).
    exists (onDone t). simpl. rewrite list_lookup_fmap, Ht. split; [done|].
    destruct t as [ev s0]. simpl in *. by subst.
Qed.


(** C2, as the code has it. In every reachable state: each pending entry
    names one goroutine, launched for an event of that hash; each goroutine
    has called [addValTellor] at most once, and exactly as often as its
    status says: not at all while it waits or once it is cancelled, once
    after it fired. A cancelled goroutine stays cancelled under every step,
    so it never fires later. Several goroutines may be launched for one
    hash, and each of them may fire. *)
Theorem pending_commit_fires_once env db0 st :
  reachable env db0 st →
  (∀ k n, pendingAppend st !! k = Some n →
          ∃ t, tasks st !! n = Some t ∧ key (tEvent t) = k) ∧
  (∀ n, (appendsOf n st ≤ 1)%nat) ∧
  (∀ (n : nat) t, tasks st !! n = Some t → appendsOf n st = fired (tStatus t)) ∧
  (∀ s st' (n : nat) t,
      step env s st = Some st' → tasks st !! n = Some t → tStatus t = Canceled →
      appendsOf n st = 0%nat ∧ appendsOf n st' = 0%nat ∧
      ∃ t', tasks st' !! n = Some t' ∧ tStatus t' = Canceled).
Proof.
  intros Hr. pose proof (reachable_Consistent _ _ _ Hr) as [H1 H2].
  split_and!.
  - done.
  - intros n. rewrite H1. unfold firedAt.
    destruct (tasks st !! n) as [[ev []]|]; simpl; lia.
  - intros n t Ht. rewrite H1. unfold firedAt. by rewrite Ht.
  - intros s st' n t Hs Ht Hc.
    destruct (step_Canceled _ _ _ _ _ _ Hs Ht Hc) as (t' & Ht' & Hc').
    pose proof (step_Consistent _ _ _ _ (conj H1 H2) Hs) as [H1' _].
    rewrite H1, H1'. unfold firedAt. rewrite Ht, Ht'. simpl. rewrite Hc, Hc'. eauto.
Qed.

(** C2, as stated, fails: two events with one hash both pass the window,
    and [addValTellor] runs twice for that hash. *)
Lemma two_appends_for_one_key : ¬ WriteOncePerKey steadyEnv [].
Proof.
  intros H.
  edestruct (H [SubscribeTry None; Deliver E1; Deliver E1; Tick 0; Tick 1;
                DoAppend 0; DoAppend 1]) as [_ Hk]; [vm_compute; reflexivity|].
  specialize (Hk "0xabc"). vm_compute in Hk. lia.
Qed.

(** *** The subscription loops *)

Lemma loc_closed_fire env n event st :
  loc (fire env n event st) = loc st ∧ closed (fire env n event st) = closed st ∧
  waited (fire env n event st) = waited st.
Proof. unfold fire. by destruct (addValTellor env event (world st)) as [[e|] w]. Qed.

Lemma loc_closed_removePending event st :
  loc (removePending event st) = loc st ∧ closed (removePending event st) = closed st ∧
  waited (removePending event st) = waited st.
Proof. unfold removePending. by destruct (pendingAppend st !! key event). Qed.

Lemma loc_closed_receive event st :
  loc (receive event st) = loc st ∧ closed (receive event st) = closed st.
Proof.
  unfold receive. simpl. destruct (Removed (Raw event)); [|done].
  by destruct (loc_closed_removePending event st) as (-> & -> & _).
Qed.

(** A step leads to [Exited] only by [<-self.ctx.Done()], and the context
    is cancelled only by [Stop]. *)
Lemma step_exit env s st st' :
  step env s st = Some st' →
  (loc st' = Exited → loc st = Exited ∨ (s = CtxDone ∧ closed st = true)) ∧
  (closed st' = true → closed st = true ∨ s = DoStop) ∧
  (closed st = true → closed st' = true).
Proof.
  intros Hs. destruct s as [err|err| |event|n|n|n|]; unfold step in Hs.
  - destruct (loc st) as [initial| |] eqn:El; try done.
    destruct (closed st) eqn:Ec; [done|].
    destruct err; [|destruct initial]; simplify_eq; simpl; rewrite ?Ec, ?El;
      intuition congruence.
  - destruct (loc st) eqn:El; try done. simplify_eq.
    destruct err; simpl; intuition congruence.
  - destruct (loc st) eqn:El; try done; destruct (closed st) eqn:Ec; simplify_eq; simpl;
      rewrite ?Ec; intuition congruence.
  - destruct (loc st) eqn:El; try done. simplify_eq.
    destruct (loc_closed_receive event st) as [-> ->]. rewrite El. intuition congruence.
  - destruct (taskAt n Waiting st); [|by destruct (loc st)].
    assert (st' = setStatus n Elapsed st) as -> by (destruct (loc st); by simplify_eq/=).
    simpl. intuition congruence.
  - destruct (taskAt n Elapsed st) as [event|]; [|by destruct (loc st)].
    assert (st' = setStatus n Appended (fire env n event st)) as ->
      by (destruct (loc st); by simplify_eq/=).
    simpl. destruct (loc_closed_fire env n event st) as (-> & -> & _). intuition congruence.
  - destruct (taskAt n Appended st) as [event|]; [|by destruct (loc st)].
    assert (st' = setStatus n Finished (removePending event st)) as ->
      by (destruct (loc st); by simplify_eq/=).
    simpl. destruct (loc_closed_removePending event st) as (-> & -> & _).
    intuition congruence.
  - assert (st' = Stop st) as -> by (destruct (loc st); by simplify_eq).
    simpl. intuition congruence.
Qed.

Lemma run_closed env ss st st' :
  run env ss st = Some st' → closed st = true → closed st' = true.
Proof.
  revert st. induction ss as [|s ss IH]; intros st Hr Hc; simpl in Hr; [by simplify_eq|].
  destruct (step env s st) as [st1|] eqn:E; simpl in Hr; [|done].
  apply (IH st1); [done|]. by apply (step_exit _ _ _ _ E).
Qed.

Lemma run_exit env ss st st' :
  run env ss st = Some st' →
  (closed st' = true → closed st = true ∨ DoStop ∈ ss) ∧
  (loc st' = Exited → loc st = Exited ∨ (closed st' = true ∧ CtxDone ∈ ss)).
Proof.
  revert st. induction ss as [|s ss IH]; intros st Hr; simpl in Hr.
  { simplify_eq. auto. }
  destruct (step env s st) as [st1|] eqn:E; simpl in Hr; [|done].
  destruct (IH _ Hr) as [IHc IHl]. destruct (step_exit _ _ _ _ E) as (Hl & Hc & Hm).
  split.
  - intros Hc'. rewrite elem_of_cons.
    destruct (IHc Hc') as [Hc1|Hin]; [|by auto].
    destruct (Hc Hc1) as [?| ->]; by auto.
  - intros Hl'. rewrite elem_of_cons.
    destruct (IHl Hl') as [Hl1|[Hc' Hin]]; [|by auto].
    destruct (Hl Hl1) as [?|[-> Hcl]]; [by left|]. right. split; [|by auto].
    apply (run_closed _ _ _ _ Hr). by apply Hm.
Qed.

(** Failed attempts to subscribe, however many, leave the loop where it
    is, each after one reception from the one-second ticker. *)
Lemma retry_forever env st b errs :
  loc st = Subscribing b → closed st = false → Forall is_Some errs →
  ∃ st', run env (SubscribeTry <$> errs) st = Some st' ∧
         loc st' = Subscribing b ∧ closed st' = false ∧
         waited st' = waited st ++ replicate (length errs) Second.
Proof.
  intros Hl Hc Herrs. revert st Hl Hc.
  induction Herrs as [|err errs [e ->] _ IH]; intros st Hl Hc.
  { exists st. simpl. by rewrite app_nil_r. }
  cbn [fmap list_fmap run]. unfold step at 1. rewrite Hl, Hc. cbn [mbind option_bind].
  edestruct IH as (st' & Hr & Hl' & Hc' & Hw'); [..|exists st'; split; [exact Hr|]].
  - simpl. exact Hl.
  - simpl. exact Hc.
  - split_and!; [done..|]. rewrite Hw'. simpl. by rewrite <-app_assoc.
Qed.

(** C8. The goroutine of [Start] returns only by [<-self.ctx.Done()], after
    [Stop] cancelled the context. While the context is not cancelled,
    any number of failed attempts to subscribe, first or renewed, leaves it
    in the same subscribe loop, having waited one tick of the one-second
    ticker per failure, and the next success takes it to the main loop; an
    error or the end of the subscription takes the main loop back to
    subscribing. *)
Theorem subscription_never_gives_up env db0 ss st :
  run env ss (New db0) = Some st →
  (loc st = Exited → closed st = true ∧ CtxDone ∈ ss ∧ DoStop ∈ ss) ∧
  (∀ errs b, loc st = Subscribing b → closed st = false → Forall is_Some errs →
     ∃ st', run env (SubscribeTry <$> errs) st = Some st' ∧
            loc st' = Subscribing b ∧ closed st' = false ∧
            waited st' = waited st ++ replicate (length errs) Second ∧
            ∃ st'', step env (SubscribeTry None) st' = Some st'' ∧ loc st'' = Selecting) ∧
  (∀ err, loc st = Selecting →
     ∃ st', step env (SubErr err) st = Some st' ∧ loc st' = Subscribing false ∧
            closed st' = closed st).
Proof.
  intros Hr. destruct (run_exit _ _ _ _ Hr) as [Hc Hl]. split_and!.
  - intros He. destruct (Hl He) as [?|[Hcl Hin]]; [done|].
    destruct (Hc Hcl) as [?|?]; done.
  - intros errs b Hb Hcl Herrs.
    destruct (retry_forever env st b errs Hb Hcl Herrs) as (st' & Hr' & Hl' & Hc' & Hw').
    exists st'. split_and!; [done..|].
    unfold step. rewrite Hl', Hc'. eexists. split; [done|]. by destruct b.
  - intros err Hs. unfold step. rewrite Hs. eexists. split; [done|]. by destruct err.
Qed.


(** *** Labels reach the store in canonical order *)

Lemma LoopTrace_canonical miner obs hd sc err :
  LoopTrace miner obs hd sc err → Forall canonicalAppend hd.
Proof.
  assert (∀ lbls t v e, canonicalAppend (CAppend (Sort lbls) t v e)) as Hs
    by (intros; apply SortFacts.Sort_sorted).
  induction 1 as [|o obs [[now1 now2] valExp] hd sc err _ IH| | |].
  - constructor.
  - apply Forall_app. split; [|done].
    repeat first [apply Forall_nil_2 | apply Forall_cons_2 | apply Hs | exact I].
  - repeat first [apply Forall_nil_2 | apply Forall_cons_2 | apply Hs | exact I].
  - repeat first [apply Forall_nil_2 | apply Forall_cons_2 | apply Hs | exact I].
  - repeat first [apply Forall_nil_2 | apply Forall_cons_2 | apply Hs | exact I].
Qed.

(** C9. Two label sets with the same (name, value) pairs, built in any two
    orders, are sorted to the same sequence of labels, hence resolve to the
    same series whatever the store computes from the sequence; the sorted
    sequence is ordered by name and holds the same labels; sorting a sequence
    that is already sorted leaves it as it is, so sorting twice is sorting
    once. Every [Append] that [addValTellor] makes carries labels in that
    order. *)
Theorem canonical_labels (l1 l2 : Labels) env event w :
  l1 ≡ₚ l2 → LabelSet l1 →
  Sort l1 = Sort l2 ∧
  (∀ (X : Type) (series : Labels → X), series (Sort l1) = series (Sort l2)) ∧
  Sorted NameLe (Sort l1) ∧ Sort l1 ≡ₚ l1 ∧
  Sort (Sort l1) = Sort l1 ∧ (Sorted NameLe l1 → Sort l1 = l1) ∧
  ∃ hd, history (addValTellor env event w).2 = history w ++ hd ∧
        Forall canonicalAppend hd.
Proof.
  intros Hp Hset.
  pose proof (SortFacts.Sort_unique l1 l2 Hp Hset) as Heq.
  split; [done|]. split; [by intros X series; rewrite Heq|].
  split; [apply SortFacts.Sort_sorted|]. split; [apply SortFacts.Sort_perm|].
  split; [apply SortFacts.Sort_fixed, SortFacts.Sort_sorted|].
  split; [apply SortFacts.Sort_fixed|].
  destruct (addValTellor_trace env event w) as (hd & sc & lerr & res & Ht & _ & Hh & _ & Hres).
  exists (CAppender :: hd ++ [res]). split; [done|].
  apply Forall_cons_2; [exact I|]. apply Forall_app. split; [by eapply LoopTrace_canonical|].
  apply Forall_cons_2; [|apply Forall_nil_2].
  destruct lerr; destruct Hres as (-> & _); exact I.
Qed.

(** *** Where the code departs from its specification *)

(** [addValTellor] returns the result of its loop, whatever [Commit] or
    [Rollback] answered. *)
Lemma addValTellor_result env event w :
  (addValTellor env event w).1 =
    (appendValues env (Miner event) (Values event) (Appender w).2).1.
Proof.
  unfold addValTellor, mbind, M_bind, Appender. cbn [fst snd].
  set (w0 := record CAppender _).
  destruct (appendValues env (Miner event) (Values event) w0) as [[e|] w1]; cbn [fst snd].
  - destruct (Rollback env w1) as [[er|] w2]; by unfold writeLog, mret, M_ret.
  - destruct (Commit env w1) as [[ec|] w2]; by unfold mret, M_ret.
Qed.

(** Whether removed or not, a received event is registered under its hash
    and a goroutine is launched for it. *)
Lemma receive_registers event st :
  pendingAppend (receive event st) !! key event = Some (length (tasks st)) ∧
  tasks (receive event st) !! length (tasks st) =
    Some (mkTask event (if closed st then Canceled else Waiting)).
Proof.
  unfold receive.
  set (st1 := if Removed (Raw event) then removePending event st else st).
  assert (length (tasks st1) = length (tasks st) ∧ closed st1 = closed st) as [Hlen Hcl].
  { subst st1. destruct (Removed (Raw event)); [|done]. unfold removePending.
    destruct (pendingAppend st !! key event); [|done]. simpl. by rewrite length_alter. }
  simpl. rewrite Hlen, Hcl. split; [apply lookup_insert_eq|].
  rewrite lookup_app_r, Hlen, Nat.sub_diag by lia. done.
Qed.

(** C1 at its failing input: an event, then, within the window, the
    removed event of the same hash. The pending append of the first event is
    cancelled, but the removed event is registered and launched like a new
    one; when its window elapses it is written to the store. *)
Lemma removed_event_is_appended :
  ∃ st st',
    run steadyEnv [SubscribeTry None; Deliver E1; Deliver E1removed] (New []) = Some st ∧
    pendingAppend st !! "0xabc" = Some 1%nat ∧
    tasks st = [mkTask E1 Canceled; mkTask E1removed Waiting] ∧
    run steadyEnv [Tick 1; DoAppend 1; DoRemove 1] st = Some st' ∧
    appendsFor "0xabc" st' = 1%nat ∧
    db (world st') = samplesOf "0xminer" [mkObservation 1 42]
                       [(1600000000124456789, 1600000000126456789, float64 100)].
Proof.
  eexists _, _.
  split; [evaluated|].
  split; [evaluated|].
  split; [evaluated|].
  split; [evaluated|].
  split; [evaluated|].
  evaluated.
Qed.

(** C4 at its failing input: every append succeeds and [Commit] fails.
    [addValTellor] returns nil, because the deferred function wraps the nil
    [err] and not [errC]; the caller logs nothing, the store keeps nothing,
    and the goroutine finishes without another attempt. *)
Lemma commit_failure_is_not_reported :
  (addValTellor commitFailsEnv E1 emptyWorld).1 = None ∧
  last (history (addValTellor commitFailsEnv E1 emptyWorld).2) =
    Some (CCommit (Some "write to WAL: no space left on device")) ∧
  ∃ st,
    run commitFailsEnv [SubscribeTry None; Deliver E1; Tick 0; DoAppend 0; DoRemove 0] (New [])
      = Some st ∧
    logs (world st) = [] ∧ db (world st) = [] ∧
    tasks st = [mkTask E1 Finished] ∧ appendsOf 0 st = 1%nat.
Proof.
  split; [evaluated|].
  split; [evaluated|].
  eexists.
  split; [evaluated|].
  split; [evaluated|].
  split; [evaluated|].
  split; [evaluated|].
  evaluated.
Qed.

(** *** The theorems at concrete runs *)

(** C9 at the labels of an oracle sample, written in the order of the source
    and backwards, and at the event [E1]. *)
Lemma canonical_labels_at_oracle_labels :
  oracleLabels 1 "0xminer" ≡ₚ rev (oracleLabels 1 "0xminer") ∧
  LabelSet (oracleLabels 1 "0xminer") ∧
  (Sort (oracleLabels 1 "0xminer") = Sort (rev (oracleLabels 1 "0xminer")) ∧
   (∀ (X : Type) (series : Labels → X),
      series (Sort (oracleLabels 1 "0xminer")) = series (Sort (rev (oracleLabels 1 "0xminer")))) ∧
   Sorted NameLe (Sort (oracleLabels 1 "0xminer")) ∧
   Sort (oracleLabels 1 "0xminer") ≡ₚ oracleLabels 1 "0xminer" ∧
   Sort (Sort (oracleLabels 1 "0xminer")) = Sort (oracleLabels 1 "0xminer") ∧
   (Sorted NameLe (oracleLabels 1 "0xminer") →
    Sort (oracleLabels 1 "0xminer") = oracleLabels 1 "0xminer") ∧
   ∃ hd, history (addValTellor steadyEnv E1 emptyWorld).2 = history emptyWorld ++ hd ∧
         Forall canonicalAppend hd).
Proof.
  assert (oracleLabels 1 "0xminer" ≡ₚ rev (oracleLabels 1 "0xminer")) as Hp
    by apply Permutation_rev.
  assert (LabelSet (oracleLabels 1 "0xminer")) as Hs.
  { intros a b Ha Hb Hn. apply list_elem_of_In in Ha, Hb. simpl in Ha, Hb.
    destruct Ha as [<-|[<-|[<-|[<-|[]]]]], Hb as [<-|[<-|[<-|[<-|[]]]]];
      first [reflexivity | discriminate Hn]. }
  exact (conj Hp (conj Hs (canonical_labels _ _ steadyEnv E1 emptyWorld Hp Hs))).
Defined.

(** C2, as the code has it, at the state after a reorganisation. *)
Lemma pending_commit_fires_once_after_reorg :
  reachable steadyEnv [] (stateAfter steadyEnv afterReorg) ∧
  ((∀ k n, pendingAppend (stateAfter steadyEnv afterReorg) !! k = Some n →
           ∃ t, tasks (stateAfter steadyEnv afterReorg) !! n = Some t ∧ key (tEvent t) = k) ∧
   (∀ n, (appendsOf n (stateAfter steadyEnv afterReorg) ≤ 1)%nat) ∧
   (∀ (n : nat) t, tasks (stateAfter steadyEnv afterReorg) !! n = Some t →
                   appendsOf n (stateAfter steadyEnv afterReorg) = fired (tStatus t)) ∧
   (∀ s st' (n : nat) t,
       step steadyEnv s (stateAfter steadyEnv afterReorg) = Some st' →
       tasks (stateAfter steadyEnv afterReorg) !! n = Some t → tStatus t = Canceled →
       appendsOf n (stateAfter steadyEnv afterReorg) = 0%nat ∧ appendsOf n st' = 0%nat ∧
       ∃ t', tasks st' !! n = Some t' ∧ tStatus t' = Canceled)).
Proof.
  assert (reachable steadyEnv [] (stateAfter steadyEnv afterReorg)) as Hr
    by (exists afterReorg; vm_compute; reflexivity).
  exact (conj Hr (pending_commit_fires_once steadyEnv [] _ Hr)).
Defined.

(** C8 at a run that ends by cancellation. *)
Lemma subscription_never_gives_up_at_stopped :
  run steadyEnv stopped (New []) = Some (stateAfter steadyEnv stopped) ∧
  ((loc (stateAfter steadyEnv stopped) = Exited →
    closed (stateAfter steadyEnv stopped) = true ∧ CtxDone ∈ stopped ∧ DoStop ∈ stopped) ∧
   (∀ errs b, loc (stateAfter steadyEnv stopped) = Subscribing b →
      closed (stateAfter steadyEnv stopped) = false → Forall is_Some errs →
      ∃ st', run steadyEnv (SubscribeTry <$> errs) (stateAfter steadyEnv stopped) = Some st' ∧
             loc st' = Subscribing b ∧ closed st' = false ∧
             waited st' = waited (stateAfter steadyEnv stopped) ++ replicate (length errs) Second ∧
             ∃ st'', step steadyEnv (SubscribeTry None) st' = Some st'' ∧ loc st'' = Selecting) ∧
   (∀ err, loc (stateAfter steadyEnv stopped) = Selecting →
      ∃ st', step steadyEnv (SubErr err) (stateAfter steadyEnv stopped) = Some st' ∧
             loc st' = Subscribing false ∧
             closed st' = closed (stateAfter steadyEnv stopped))).
Proof.
  assert (run steadyEnv stopped (New []) = Some (stateAfter steadyEnv stopped)) as Hr
    by (vm_compute; reflexivity).
  exact (conj Hr (subscription_never_gives_up steadyEnv [] stopped _ Hr)).
Defined.

(** Three failed attempts to subscribe: still subscribing, three ticks of one
    second waited, and the fourth attempt may succeed. *)
Lemma three_failures_then_success :
  ∃ st st',
    run steadyEnv (SubscribeTry <$> [Some "refused"; Some "refused"; Some "timeout"]) (New [])
      = Some st ∧
    loc st = Subscribing true ∧ waited st = [Second; Second; Second] ∧
    step steadyEnv (SubscribeTry None) st = Some st' ∧ loc st' = Selecting.
Proof.
  eexists _, _.
  split; [evaluated|].
  split; [evaluated|].
  split; [evaluated|].
  split; [evaluated|].
  evaluated.
Qed.

(** The scenario of the specification: the append for the second of two
    observations fails; [Rollback] is called, it is the only resolution of
    the scope, and the store keeps nothing of the event, not even the first
    observation. *)
Lemma second_observation_fails :
  (addValTellor appendFailsEnv E2 emptyWorld).1 =
    Some "append values to the DB: out of bounds" ∧
  db (addValTellor appendFailsEnv E2 emptyWorld).2 = [] ∧
  last (history (addValTellor appendFailsEnv E2 emptyWorld).2) = Some (CRollback None) ∧
  resolutions (history (addValTellor appendFailsEnv E2 emptyWorld).2) = 1%nat ∧
  length (history (addValTellor appendFailsEnv E2 emptyWorld).2) = 9%nat.
Proof.
  split; [evaluated|].
  split; [evaluated|].
  split; [evaluated|].
  split; [evaluated|].
  evaluated.
Qed.

(** An observed value of 2^63 is stored as -2^63. *)
Lemma value_beyond_int64 :
  Int64 (2 ^ 63) = - 2 ^ 63 ∧
  float64 (Int64 (2 ^ 63)) = S754_finite true 4503599627370496 11 ∧
  ∃ s1 s2 s3 s4,
    db (addValTellor steadyEnv E2 emptyWorld).2 = [s1; s2; s3; s4] ∧
    sV s3 = S754_finite true 4503599627370496 11 ∧ sT s3 = sT s4.
Proof.
  split; [evaluated|].
  split; [evaluated|].
  eexists _, _, _, _.
  split; [evaluated|].
  split; [evaluated|].
  evaluated.
Qed.

End DisputeFacts.

(** * Further properties *)

(** ** The mining orchestration loop, over whole runs *)

Module MiningExtra.
Import GoLib MiningMgr MiningFacts.

Section Runs.
Context {Challenge Nonce : Type}.
Implicit Types (env : Env Challenge) (m : Mgr Challenge Nonce).
Implicit Types (rs : list (Recv Challenge Nonce)) (t : list (Obs Challenge Nonce)).

Lemma pulls_draws_sendWork env m :
  pulls (sendWork env m) = S (pulls m) ∧ Running (sendWork env m) = Running m.
Proof. unfold sendWork. by destruct (PullUpdates env (pulls m)). Qed.

Lemma pulls_loop env rs m :
  finished m = false → pulls (loop env rs m) = (pulls m + ticksBeforeNil rs)%nat.
Proof.
  revert m. induction rs as [|r rs IH]; intros m H; simpl; [lia|].
  rewrite H. pose proof (finished_iteration env r m H) as Hr.
  destruct r as [|[res|]|].
  - rewrite IH by done. simpl. lia.
  - rewrite IH by done. simpl. lia.
  - rewrite loop_finished by done. simpl. lia.
  - rewrite IH by done. simpl. destruct (pulls_draws_sendWork env (emit (Got tickerC) m)) as [-> _].
    simpl. lia.
Qed.

Lemma Running_iteration env r m :
  Running m = false → Running (iteration env r m) = false.
Proof.
  intros H. destruct r as [|[res|]|]; simpl; try done.
  by destruct (pulls_draws_sendWork env (emit (Got tickerC) m)) as [_ ->].
Qed.

Lemma Running_loop env rs m : Running m = false → Running (loop env rs m) = false.
Proof.
  revert m. induction rs as [|r rs IH]; intros m H; simpl; [done|].
  destruct (finished m); [done|]. by apply IH, Running_iteration.
Qed.

Lemma finished_after_nil env m : finished (loop env [output None] m) = true.
Proof. simpl. by destruct (finished m) eqn:E. Qed.

Lemma nilPushes_app t new : nilPushes (t ++ new) = (nilPushes t + nilPushes new)%nat.
Proof. unfold nilPushes, pushed. by rewrite !omap_app, length_app. Qed.

Lemma nilPushes_loop env rs m :
  finished m = false →
  nilPushes (trace (loop env rs m)) = (nilPushes (trace m) + exitsBeforeNil rs)%nat.
Proof.
  revert m. induction rs as [|r rs IH]; intros m H; simpl; [lia|].
  rewrite H. pose proof (finished_iteration env r m H) as Hr.
  destruct r as [|[res|]|].
  - rewrite IH, trace_iteration, nilPushes_app by done. simpl. unfold nilPushes at 2. simpl. lia.
  - rewrite IH, trace_iteration, nilPushes_app by done. simpl. unfold nilPushes at 2. simpl. lia.
  - rewrite loop_finished, trace_iteration, nilPushes_app by done. unfold nilPushes at 2.
    simpl. lia.
  - rewrite IH, trace_iteration, nilPushes_app by done. unfold nilPushes at 2. simpl.
    destruct (PullUpdates env (pulls m)); simpl; lia.
Qed.

Lemma Forwarded_same env m m' :
  works (trace m') = works (trace m) → pulls m' = pulls m → Forwarded env m → Forwarded env m'.
Proof. unfold Forwarded. by intros -> ->. Qed.

Lemma Forwarded_sendWork env m : Forwarded env m → Forwarded env (sendWork env m).
Proof.
  unfold Forwarded, updates. intros H.
  rewrite trace_sendWork, works_app, fmap_app, H.
  destruct (pulls_draws_sendWork env m) as [-> _].
  rewrite seq_S, omap_app. simpl. f_equal.
  by destruct (PullUpdates env (pulls m)).
Qed.

Lemma Forwarded_iteration env r m : Forwarded env m → Forwarded env (iteration env r m).
Proof.
  intros H. destruct r as [|[res|]|]; simpl.
  - apply (Forwarded_same env m); [|done..]. simpl. rewrite !works_app. simpl.
    by rewrite !app_nil_r.
  - apply (Forwarded_same env m); [|done..]. simpl. rewrite !works_app. simpl.
    by rewrite !app_nil_r.
  - apply (Forwarded_same env m); [|done..]. simpl. rewrite !works_app. simpl.
    by rewrite !app_nil_r.
  - apply Forwarded_sendWork. apply (Forwarded_same env m); [|done..]. simpl.
    rewrite !works_app. simpl. by rewrite !app_nil_r.
Qed.

Lemma Forwarded_loop env rs m : Forwarded env m → Forwarded env (loop env rs m).
Proof.
  revert m. induction rs as [|r rs IH]; intros m H; simpl; [done|].
  destruct (finished m); [done|]. by apply IH, Forwarded_iteration.
Qed.

(** X1. On every run the loop hands to the solution handler exactly the
    non-nil results it received before the first nil result, each once, in
    the order received, with the challenge and the nonce of that result; with
    a configuration error nothing is handed over. *)
Theorem one_submit_per_result env rs :
  submits (trace (Start (Nonce:=Nonce) env rs CreateMiningManager)) =
    match cfgErr env with
    | Some _ => []
    | None => solutionsBeforeNil rs
    end.
Proof.
  unfold Start. destruct (cfgErr env); [done|].
  rewrite submits_loop by by rewrite finished_sendWork.
  by rewrite submits_sendWork.
Qed.

(** X2. Whatever the loop would receive after a nil result is never looked
    at: the run ends in the state it had on the nil result, returned and not
    running, with nothing pushed or submitted afterwards. *)
Theorem nothing_after_nil_result env rs rs' :
  Start (Nonce:=Nonce) env (rs ++ output None :: rs') CreateMiningManager =
    Start env (rs ++ [output None]) CreateMiningManager ∧
  finished (Start (Nonce:=Nonce) env (rs ++ [output None]) CreateMiningManager) = true ∧
  Running (Start (Nonce:=Nonce) env (rs ++ [output None]) CreateMiningManager) = false.
Proof.
  unfold Start. destruct (cfgErr env); [done|].
  change (output None :: rs') with ([output None] ++ rs').
  rewrite !loop_app. split_and!.
  - apply loop_finished, finished_after_nil.
  - apply finished_after_nil.
  - apply Running_loop, Running_loop. by destruct (pulls_draws_sendWork env CreateMiningManager) as [_ ->].
Qed.

(** X3. The tasker is asked once at the start and once per tick received
    before the loop returns, and the [Work] values pushed carry exactly the
    updates it returned, in that order: no update is dropped, repeated or
    reordered. *)
Theorem challenges_forwarded_in_order env rs :
  wChallenge <$> works (trace (Start (Nonce:=Nonce) env rs CreateMiningManager)) =
    updates env (pulls (Start (Nonce:=Nonce) env rs CreateMiningManager)) ∧
  pulls (Start (Nonce:=Nonce) env rs CreateMiningManager) =
    match cfgErr env with
    | Some _ => 0%nat
    | None => S (ticksBeforeNil rs)
    end.
Proof.
  unfold Start. destruct (cfgErr env); [done|]. split.
  - apply Forwarded_loop, Forwarded_sendWork. done.
  - rewrite pulls_loop by by rewrite finished_sendWork.
    by destruct (pulls_draws_sendWork env CreateMiningManager) as [-> _].
Qed.

(** X4. The loop never marks the manager as running: [Running], false in a
    new manager, is false in every state of every run. *)
Theorem never_marked_running env rs :
  Running (Start (Nonce:=Nonce) env rs CreateMiningManager) = false.
Proof.
  unfold Start. destruct (cfgErr env); [done|].
  apply Running_loop. by destruct (pulls_draws_sendWork env CreateMiningManager) as [_ ->].
Qed.

(** X5. A nil [Work] is pushed once for every shutdown signal received
    before the loop returns, so a repeated signal asks the pool to stop
    again; nothing else pushes a nil [Work]. *)
Theorem one_nil_work_per_signal env rs :
  nilPushes (trace (Start (Nonce:=Nonce) env rs CreateMiningManager)) =
    match cfgErr env with
    | Some _ => 0%nat
    | None => exitsBeforeNil rs
    end.
Proof.
  unfold Start. destruct (cfgErr env); [done|].
  rewrite nilPushes_loop by by rewrite finished_sendWork.
  rewrite trace_sendWork, nilPushes_app. simpl.
  unfold nilPushes. simpl. by destruct (PullUpdates env 0).
Qed.

End Runs.
End MiningExtra.

(** ** The dispute tracker, over whole runs *)

Module DisputeExtra.
Import GoLib Dispute DisputeFacts.

(** *** Goroutines only move forward *)

Lemma later_refl s : later s s = true.
Proof. by destruct s. Qed.

Lemma later_trans s1 s2 s3 : later s1 s2 = true → later s2 s3 = true → later s1 s3 = true.
Proof. by destruct s1, s2, s3. Qed.

Lemma later_onDone t : tEvent (onDone t) = tEvent t ∧ later (tStatus t) (tStatus (onDone t)) = true.
Proof. destruct t as [ev s]. by destruct s. Qed.

Lemma Keeps_refl ts : Keeps ts ts.
Proof. intros n t Ht. exists t. by rewrite later_refl. Qed.

Lemma Keeps_trans ts1 ts2 ts3 : Keeps ts1 ts2 → Keeps ts2 ts3 → Keeps ts1 ts3.
Proof.
  intros H12 H23 n t Ht. destruct (H12 n t Ht) as (t2 & Ht2 & He2 & Hl2).
  destruct (H23 n t2 Ht2) as (t3 & Ht3 & He3 & Hl3).
  exists t3. split_and!; [done|congruence|by eapply later_trans].
Qed.

Lemma Keeps_alter (f : Task → Task) (m : nat) (ts : list Task) :
  (∀ t, ts !! m = Some t → tEvent (f t) = tEvent t ∧ later (tStatus t) (tStatus (f t)) = true) →
  Keeps ts (alter f m ts).
Proof.
  intros Hf n t Ht. destruct (decide (m = n)) as [->|Hne].
  - exists (f t). rewrite list_lookup_alter_eq, Ht. split; [done|]. by apply Hf.
  - exists t. rewrite list_lookup_alter_ne by done. by rewrite later_refl.
Qed.

Lemma Keeps_fmap_onDone (ts : list Task) : Keeps ts (onDone <$> ts).
Proof.
  intros n t Ht. exists (onDone t). rewrite list_lookup_fmap, Ht. split; [done|].
  apply later_onDone.
Qed.

Lemma Keeps_app (ts new : list Task) : Keeps ts (ts ++ new).
Proof.
  intros n t Ht. exists t. split; [by apply lookup_app_l_Some|]. by rewrite later_refl.
Qed.

Lemma Keeps_removePending event st : Keeps (tasks st) (tasks (removePending event st)).
Proof.
  unfold removePending. destruct (pendingAppend st !! key event) as [m|]; simpl.
  - apply Keeps_alter. intros t _. apply later_onDone.
  - apply Keeps_refl.
Qed.

Lemma Keeps_receive event st : Keeps (tasks st) (tasks (receive event st)).
Proof.
  unfold receive. simpl. eapply Keeps_trans; [|apply Keeps_app].
  destruct (Removed (Raw event)); [apply Keeps_removePending|apply Keeps_refl].
Qed.

Lemma Keeps_setStatus n s s' st event :
  taskAt n s st = Some event → later s s' = true →
  Keeps (tasks st) (tasks (setStatus n s' st)).
Proof.
  intros Ht Hl. apply taskAt_Some in Ht. simpl. apply Keeps_alter.
  intros t Hn. rewrite Ht in Hn. by simplify_eq/=.
Qed.

Lemma tasks_fire env n event st : tasks (fire env n event st) = tasks st.
Proof. unfold fire. by destruct (addValTellor env event (world st)) as [[e|] w]. Qed.

(** What each step is, read off [step]. *)
Lemma step_cases env s st st' :
  step env s st = Some st' →
  match s with
  | SubscribeTry _ | SubErr _ | CtxDone =>
      tasks st' = tasks st ∧ pendingAppend st' = pendingAppend st ∧
      appendLog st' = appendLog st ∧ db (world st') = db (world st) ∧
      history (world st') = history (world st) ∧ closed st' = closed st
  | Deliver event => loc st = Selecting ∧ st' = receive event st
  | Tick n => ∃ event, taskAt n Waiting st = Some event ∧ st' = setStatus n Elapsed st
  | DoAppend n =>
      ∃ event, taskAt n Elapsed st = Some event ∧
               st' = setStatus n Appended (fire env n event st)
  | DoRemove n =>
      ∃ event, taskAt n Appended st = Some event ∧
               st' = setStatus n Finished (removePending event st)
  | DoStop => st' = Stop st
  end.
Proof.
  intros Hs. destruct s as [err|err| |event|n|n|n|]; unfold step in Hs.
  - destruct (loc st) as [initial| |]; try done. destruct (closed st) eqn:Ec; [done|].
    destruct err; [|destruct initial]; simplify_eq; simpl; by rewrite ?Ec.
  - destruct (loc st); try done. simplify_eq. by destruct err.
  - destruct (loc st); try done; destruct (closed st) eqn:Ec; by simplify_eq.
  - destruct (loc st); try done. by simplify_eq.
  - destruct (loc st); destruct (taskAt n Waiting st) eqn:E; simplify_eq/=; eauto.
  - destruct (loc st); destruct (taskAt n Elapsed st) eqn:E; simplify_eq/=; eauto.
  - destruct (loc st); destruct (taskAt n Appended st) eqn:E; simplify_eq/=; eauto.
  - destruct (loc st); by simplify_eq.
Qed.

Lemma step_Keeps env s st st' : step env s st = Some st' → Keeps (tasks st) (tasks st').
Proof.
  intros Hs. apply step_cases in Hs. destruct s as [err|err| |event|n|n|n|].
  - destruct Hs as (-> & _). apply Keeps_refl.
  - destruct Hs as (-> & _). apply Keeps_refl.
  - destruct Hs as (-> & _). apply Keeps_refl.
  - destruct Hs as (_ & ->). apply Keeps_receive.
  - destruct Hs as (event & Ht & ->). by apply (Keeps_setStatus n Waiting Elapsed st event).
  - destruct Hs as (event & Ht & ->).
    eapply Keeps_trans; [|apply (Keeps_setStatus n Elapsed Appended _ event); [by apply taskAt_fire|done]].
    rewrite tasks_fire. apply Keeps_refl.
  - destruct Hs as (event & Ht & ->).
    eapply Keeps_trans; [apply (Keeps_removePending event)|].
    apply (Keeps_setStatus n Appended Finished _ event); [|done].
    by apply taskAt_removePending.
  - subst st'. apply Keeps_fmap_onDone.
Qed.

Lemma run_Keeps env ss st st' : run env ss st = Some st' → Keeps (tasks st) (tasks st').
Proof.
  revert st. induction ss as [|s ss IH]; intros st Hr; simpl in Hr.
  { simplify_eq. apply Keeps_refl. }
  destruct (step env s st) as [st1|] eqn:E; simpl in Hr; [|done].
  eapply Keeps_trans; [by eapply step_Keeps|by apply IH].
Qed.

Lemma run_app env ss1 ss2 st :
  run env (ss1 ++ ss2) st = run env ss1 st ≫= run env ss2.
Proof.
  revert st. induction ss1 as [|s ss1 IH]; intros st; simpl; [done|].
  destruct (step env s st); simpl; [apply IH|done].
Qed.

Lemma taskAt_Keeps n s ts st st' event :
  ts = tasks st → Keeps ts (tasks st') → taskAt n s st = Some event →
  ∃ s', taskAt n s' st' = Some event ∧ later s s' = true.
Proof.
  intros -> Hk Ht. apply taskAt_Some in Ht. destruct (Hk n _ Ht) as ([ev s'] & Ht' & He & Hl).
  simpl in *. subst ev. exists s'. split; [|done].
  unfold taskAt. rewrite Ht'. simpl. by case_decide.
Qed.

(** X6. Along every run a goroutine, once launched, stays in the list under
    its index with the event it was launched for, and its state only moves
    forward: from waiting to cancelled, or to elapsed, appended and
    finished; a cancelled goroutine is never revived and a finished one never
    runs again. *)
Theorem goroutines_only_advance env ss st st' (n : nat) t :
  run env ss st = Some st' → tasks st !! n = Some t →
  ∃ t', tasks st' !! n = Some t' ∧ tEvent t' = tEvent t ∧
        later (tStatus t) (tStatus t') = true ∧
        (tStatus t = Canceled → tStatus t' = Canceled) ∧
        (tStatus t = Finished → tStatus t' = Finished).
Proof.
  intros Hr Ht. destruct (run_Keeps _ _ _ _ Hr n t Ht) as (t' & Ht' & He & Hl).
  exists t'. split_and!; [done..| |]; intros Hs; rewrite Hs in Hl; by destruct (tStatus t').
Qed.

(** *** The store under the tracker *)

Lemma world_logT l msg st :
  db (world (logT l msg st)) = db (world st) ∧
  history (world (logT l msg st)) = history (world st).
Proof. done. Qed.

Lemma frame_removePending event st :
  appendLog (removePending event st) = appendLog st ∧
  db (world (removePending event st)) = db (world st) ∧
  history (world (removePending event st)) = history (world st).
Proof. unfold removePending. by destruct (pendingAppend st !! key event). Qed.

Lemma frame_receive event st :
  appendLog (receive event st) = appendLog st ∧
  db (world (receive event st)) = db (world st) ∧
  history (world (receive event st)) = history (world st).
Proof.
  unfold receive. simpl. destruct (Removed (Raw event)); [|done].
  apply frame_removePending.
Qed.

Lemma frame_fire env n event st :
  appendLog (fire env n event st) = appendLog st ++ [n] ∧
  db (world (fire env n event st)) = db (addValTellor env event (world st)).2 ∧
  history (world (fire env n event st)) = history (addValTellor env event (world st)).2.
Proof. unfold fire. by destruct (addValTellor env event (world st)) as [[e|] w]. Qed.

(** One call of [addValTellor] adds to the store nothing or the whole event. *)
Lemma addValTellor_block env event w :
  ∃ b, db (addValTellor env event w).2 = db w ++ b ∧ WholeEvent event b ∧
       ∃ hd, history (addValTellor env event w).2 = history w ++ hd.
Proof.
  destruct (addValTellor_trace env event w) as (hd & sc & lerr & res & Ht & _ & Hh & _ & Hres).
  apply LoopTrace_shape in Ht as [_ Hshape]. destruct lerr as [e|].
  - destruct Hres as (_ & _ & ->). exists []. rewrite app_nil_r.
    split_and!; [done|by left|by eexists].
  - destruct Hres as (_ & _ & ->). destruct Hshape as (_ & rows & Hlen & _ & ->).
    destruct (tsdbCommit env _ _).
    + exists []. rewrite app_nil_r. split_and!; [done|by left|by eexists].
    + eexists. split_and!; [done|right; by exists rows|by eexists].
Qed.

(** What a step does to the log of appends, the store and the history. *)
Lemma step_frame env s st st' :
  step env s st = Some st' →
  match s with
  | DoAppend n =>
      ∃ event, taskAt n Elapsed st = Some event ∧
               appendLog st' = appendLog st ++ [n] ∧
               db (world st') = db (addValTellor env event (world st)).2 ∧
               history (world st') = history (addValTellor env event (world st)).2
  | _ =>
      appendLog st' = appendLog st ∧ db (world st') = db (world st) ∧
      history (world st') = history (world st)
  end.
Proof.
  intros Hs. apply step_cases in Hs. destruct s as [err|err| |event|n|n|n|].
  - by destruct Hs as (_ & _ & -> & -> & -> & _).
  - by destruct Hs as (_ & _ & -> & -> & -> & _).
  - by destruct Hs as (_ & _ & -> & -> & -> & _).
  - destruct Hs as (_ & ->). apply frame_receive.
  - by destruct Hs as (event & _ & ->).
  - destruct Hs as (event & Ht & ->). exists event. split; [done|]. apply frame_fire.
  - destruct Hs as (event & _ & ->). apply frame_removePending.
  - by subst st'.
Qed.

(** X7. Under the tracker the store only grows, and it grows only in the
    step in which a goroutine whose window has elapsed calls [addValTellor]:
    receiving an event, removed or not, cancelling, finishing, subscribing
    and [Stop] leave the store and the history of calls as they are. *)
Theorem store_written_only_by_appends env ss st st' :
  run env ss st = Some st' →
  (∃ new, db (world st') = db (world st) ++ new) ∧
  ((∀ n, DoAppend n ∉ ss) →
   db (world st') = db (world st) ∧ history (world st') = history (world st) ∧
   appendLog st' = appendLog st).
Proof.
  revert st. induction ss as [|s ss IH]; intros st Hr; simpl in Hr.
  { simplify_eq. split; [exists []; by rewrite app_nil_r|done]. }
  destruct (step env s st) as [st1|] eqn:E; simpl in Hr; [|done].
  destruct (IH _ Hr) as [[new Hnew] Hsame]. pose proof (step_frame _ _ _ _ E) as Hf. split.
  - destruct s as [err|err| |event|n|n|n|];
      try (destruct Hf as (_ & Hdb & _); exists new; by rewrite Hnew, Hdb).
    destruct Hf as (event & _ & _ & Hdb & _).
    destruct (addValTellor_block env event (world st)) as (b & Hb & _).
    exists (b ++ new). by rewrite Hnew, Hdb, Hb, <-app_assoc.
  - intros Hno. destruct Hsame as (Hdb & Hh & Hl).
    { intros n Hin. apply (Hno n). rewrite elem_of_cons. by right. }
    rewrite Hdb, Hh, Hl.
    destruct s as [err|err| |event|n|n|n|]; try (by destruct Hf as (-> & -> & ->)).
    exfalso. apply (Hno n). rewrite elem_of_cons. by left.
Qed.

(** The blocks of whole events are kept by a step that keeps the goroutines. *)
Lemma WholeEvents_Keeps st st' blocks :
  Keeps (tasks st) (tasks st') → appendLog st' = appendLog st →
  WholeEvents st blocks → WholeEvents st' blocks.
Proof.
  unfold WholeEvents. intros Hk -> Hw. eapply Forall2_impl; [exact Hw|].
  intros n b (ev & Hev & Hb). exists ev. split; [|done].
  unfold eventOf in *. destruct (tasks st !! n) as [t|] eqn:Ht; [|done].
  destruct (Hk n t Ht) as (t' & -> & He & _). simpl in *. congruence.
Qed.

Lemma step_WholeEvents env db0 s st st' :
  step env s st = Some st' →
  (∃ blocks, db (world st) = db0 ++ concat blocks ∧ WholeEvents st blocks) →
  ∃ blocks, db (world st') = db0 ++ concat blocks ∧ WholeEvents st' blocks.
Proof.
  intros Hs (blocks & Hdb & Hw).
  pose proof (step_Keeps _ _ _ _ Hs) as Hk. pose proof (step_frame _ _ _ _ Hs) as Hf.
  destruct s as [err|err| |event|n|n|n|];
    try (destruct Hf as (Hl & Hd & _); exists blocks; split;
         [by rewrite Hd|by apply (WholeEvents_Keeps st)]).
  destruct Hf as (event & Ht & Hl & Hd & _).
  destruct (addValTellor_block env event (world st)) as (b & Hb & Hwhole & _).
  exists (blocks ++ [b]). split.
  - rewrite Hd, Hb, Hdb, concat_app. simpl. by rewrite app_nil_r, app_assoc.
  - unfold WholeEvents. rewrite Hl. apply Forall2_app.
    + eapply Forall2_impl; [exact Hw|]. intros m b' (ev & Hev & Hb'). exists ev.
      split; [|done]. unfold eventOf in *. destruct (tasks st !! m) as [t|] eqn:Hm; [|done].
      destruct (Hk m t Hm) as (t' & -> & He & _). simpl in *. congruence.
    + constructor; [|constructor]. exists event. split; [|done].
      destruct (taskAt_Keeps n Elapsed _ st st' event eq_refl Hk Ht) as (s' & Ht' & _).
      apply taskAt_Some in Ht'. unfold eventOf. by rewrite Ht'.
Qed.

(** X8. After any run the store holds, after what it held at the start, one
    block per call of [addValTellor], in the order of the calls, and each
    block is either empty or the two samples of every observation of the
    event the calling goroutine was launched for: no event is ever in the
    store in part. *)
Theorem store_holds_whole_events env db0 st :
  reachable env db0 st →
  ∃ blocks, db (world st) = db0 ++ concat blocks ∧ WholeEvents st blocks ∧
            length blocks = length (appendLog st).
Proof.
  intros [ss Hr].
  assert (∃ blocks, db (world st) = db0 ++ concat blocks ∧ WholeEvents st blocks)
    as (blocks & Hdb & Hw).
  { assert (∃ blocks, db (world (New db0)) = db0 ++ concat blocks ∧
                      WholeEvents (New db0) blocks) as H0.
    { exists []. simpl. rewrite app_nil_r. split; [done|]. constructor. }
    revert H0 Hr. generalize (New db0). induction ss as [|s ss IH]; intros st0 H0 Hr;
      simpl in Hr; [by simplify_eq|].
    destruct (step env s st0) as [st1|] eqn:E; simpl in Hr; [|done].
    apply (IH st1); [|done]. by eapply step_WholeEvents. }
  exists blocks. split_and!; [done..|].
  symmetry. by eapply Forall2_length.
Qed.

(** *** Cancelling *)

Lemma extend_Consistent env db0 st ss st' :
  reachable env db0 st → run env ss st = Some st' → Consistent st'.
Proof. intros Hr Hrun. eapply run_Consistent; [by eapply reachable_Consistent|done]. Qed.

Lemma taskAt_lookup n s st ev :
  tasks st !! n = Some (mkTask ev s) → taskAt n s st = Some ev.
Proof. intros H. unfold taskAt. rewrite H. simpl. by rewrite decide_True. Qed.

(** A cancelled goroutine stays cancelled and never appends. *)
Lemma Canceled_for_good env st n ev ss st' :
  Consistent st → taskAt n Canceled st = Some ev → run env ss st = Some st' →
  taskAt n Canceled st' = Some ev ∧ appendsOf n st' = 0%nat.
Proof.
  intros Hc Ht Hr.
  destruct (taskAt_Keeps n Canceled _ st st' ev eq_refl (run_Keeps _ _ _ _ Hr) Ht)
    as (s' & Ht' & Hl).
  assert (s' = Canceled) as -> by by destruct s'.
  split; [done|].
  destruct (run_Consistent _ _ _ _ Hc Hr) as [H1 _]. rewrite H1. unfold firedAt.
  by rewrite (taskAt_Some _ _ _ _ Ht').
Qed.

(** X9. A removed notice that arrives while the goroutine of the event still
    waits, and while the pending entry of the hash is still that
    goroutine's, cancels it for good: under every later schedule the
    goroutine stays cancelled and never calls [addValTellor]. *)
Theorem removed_notice_cancels_for_good env db0 st n ev ev' :
  reachable env db0 st → loc st = Selecting →
  taskAt n Waiting st = Some ev → pendingAppend st !! key ev = Some n →
  Removed (Raw ev') = true → key ev' = key ev →
  ∃ st1, step env (Deliver ev') st = Some st1 ∧ taskAt n Canceled st1 = Some ev ∧
         ∀ ss st2, run env ss st1 = Some st2 →
                   taskAt n Canceled st2 = Some ev ∧ appendsOf n st2 = 0%nat.
Proof.
  intros Hr Hl Ht Hp Hrem Hk. exists (receive ev' st).
  assert (step env (Deliver ev') st = Some (receive ev' st)) as Hs
    by (unfold step; by rewrite Hl).
  assert (taskAt n Canceled (receive ev' st) = Some ev) as Ht1.
  { pose proof (taskAt_Some _ _ _ _ Ht) as Hn.
    apply taskAt_lookup. unfold receive, removePending. rewrite Hrem, Hk, Hp. simpl.
    apply lookup_app_l_Some. by rewrite list_lookup_alter_eq, Hn. }
  split_and!; [done..|]. intros ss st2 Hrun.
  apply (Canceled_for_good env (receive ev' st) n ev ss st2); [|done..].
  eapply step_Consistent; [by eapply reachable_Consistent|done].
Qed.

(** X10. [removePending] cancels whatever goroutine the entry of the hash
    names. When a goroutine finishes while the entry belongs to a newer
    goroutine of the same hash that still waits, the newer one is cancelled
    and the entry deleted: the newer event is never written, under any later
    schedule. *)
Theorem finishing_goroutine_cancels_newer_one env db0 st n m ev ev2 :
  reachable env db0 st →
  taskAt n Appended st = Some ev → pendingAppend st !! key ev = Some m →
  taskAt m Waiting st = Some ev2 →
  key ev2 = key ev ∧
  ∃ st1, step env (DoRemove n) st = Some st1 ∧
         taskAt m Canceled st1 = Some ev2 ∧ pendingAppend st1 !! key ev = None ∧
         ∀ ss st2, run env ss st1 = Some st2 →
                   taskAt m Canceled st2 = Some ev2 ∧ appendsOf m st2 = 0%nat.
Proof.
  intros Hr Hn Hp Hm. pose proof (reachable_Consistent _ _ _ Hr) as Hc.
  pose proof (taskAt_Some _ _ _ _ Hm) as Hm'. pose proof (taskAt_Some _ _ _ _ Hn) as Hn'.
  split.
  { destruct Hc as [_ H2]. destruct (H2 _ _ Hp) as (t & Ht & Hk).
    rewrite Hm' in Ht. by simplify_eq/=. }
  assert (n ≠ m) as Hne by (intros ->; rewrite Hn' in Hm'; by simplify_eq).
  set (st1 := setStatus n Finished (removePending ev st)).
  assert (step env (DoRemove n) st = Some st1) as Hs.
  { unfold step. rewrite Hn. by destruct (loc st). }
  exists st1.
  assert (taskAt m Canceled st1 = Some ev2) as Hm1.
  { apply taskAt_lookup. subst st1. unfold removePending. rewrite Hp. simpl.
    by rewrite list_lookup_alter_ne, list_lookup_alter_eq, Hm' by done. }
  split_and!; [done..| |].
  - subst st1. simpl. apply pending_removePending.
  - intros ss st2 Hrun. apply (Canceled_for_good env st1 m ev2 ss st2); [|done..].
    by eapply step_Consistent.
Qed.

(** *** [removePending] and registering *)

(** X11. A second [removePending] for the same event, as after a repeated
    removed notice or in a goroutine whose entry a removed notice has
    already deleted, finds no entry: it cancels nothing, leaves the map, the
    goroutines, the log of appends and the store as they are, and writes one
    error line. *)
Theorem second_removePending_only_logs event st :
  pendingAppend (removePending event st) !! key event = None ∧
  pendingAppend (removePending event (removePending event st)) =
    pendingAppend (removePending event st) ∧
  tasks (removePending event (removePending event st)) = tasks (removePending event st) ∧
  appendLog (removePending event (removePending event st)) = appendLog st ∧
  db (world (removePending event (removePending event st))) = db (world st) ∧
  logs (world (removePending event (removePending event st))) =
    logs (world (removePending event st)) ++ [(Error, "missing pending TX for removed event")].
Proof.
  pose proof (pending_removePending event st) as Hnone.
  destruct (frame_removePending event st) as (Hl & Hd & _).
  split; [done|].
  assert (removePending event (removePending event st) =
          logT Error "missing pending TX for removed event" (removePending event st)) as ->.
  { generalize dependent (removePending event st). intros st1 Hnone _ _.
    unfold removePending. by rewrite Hnone. }
  simpl. by rewrite Hl, Hd.
Qed.


(** *** [Stop] *)

Lemma lookup_alter_None (f : Task → Task) (m n : nat) (l : list Task) :
  l !! n = None → alter f m l !! n = None.
Proof.
  intros H. destruct (decide (m = n)) as [->|Hne].
  - by rewrite list_lookup_alter_eq, H.
  - by rewrite list_lookup_alter_ne.
Qed.

Lemma closed_removePending event st : closed (removePending event st) = closed st.
Proof. unfold removePending. by destruct (pendingAppend st !! key event). Qed.

Lemma new_removePending event st (n : nat) :
  tasks st !! n = None → tasks (removePending event st) !! n = None.
Proof.
  intros H. unfold removePending. destruct (pendingAppend st !! key event); simpl; [|done].
  by apply lookup_alter_None.
Qed.

(** A step adds a goroutine only by receiving an event, and a goroutine
    launched under a cancelled context is cancelled at once. *)
Lemma step_new env s st st' (n : nat) :
  step env s st = Some st' → tasks st !! n = None →
  tasks st' !! n = None ∨
  ∃ ev, s = Deliver ev ∧
        tasks st' !! n = Some (mkTask ev (if closed st then Canceled else Waiting)).
Proof.
  intros Hs Hn. apply step_cases in Hs. destruct s as [err|err| |event|m|m|m|].
  - destruct Hs as (-> & _). by left.
  - destruct Hs as (-> & _). by left.
  - destruct Hs as (-> & _). by left.
  - destruct Hs as (_ & ->). unfold receive.
    set (st1 := if Removed (Raw event) then removePending event st else st).
    assert (tasks st1 !! n = None ∧ closed st1 = closed st) as [Hn1 Hc1].
    { subst st1. destruct (Removed (Raw event)); [|done].
      split; [by apply new_removePending|apply closed_removePending]. }
    simpl. rewrite Hc1. apply lookup_ge_None in Hn1.
    rewrite lookup_app_r by done.
    destruct (n - length (tasks st1))%nat; [right; by exists event|by left].
  - destruct Hs as (event & _ & ->). left. by apply lookup_alter_None.
  - destruct Hs as (event & _ & ->). left. simpl. apply lookup_alter_None.
    by rewrite tasks_fire.
  - destruct Hs as (event & _ & ->). left. simpl. apply lookup_alter_None.
    by apply new_removePending.
  - subst st'. left. simpl. by rewrite list_lookup_fmap, Hn.
Qed.

Lemma step_quiet env s st st' :
  step env s st = Some st' → (closed st = true → NoneWaiting st) →
  closed st' = true → NoneWaiting st'.
Proof.
  intros Hs Hq Hc' n t' Ht'.
  destruct (step_exit _ _ _ _ Hs) as (_ & Hstop & _).
  destruct (Hstop Hc') as [Hc| ->].
  - destruct (tasks st !! n) as [t|] eqn:Hn.
    + destruct (step_Keeps _ _ _ _ Hs n t Hn) as (t1 & Ht1 & _ & Hl).
      rewrite Ht1 in Ht'. simplify_eq. specialize (Hq Hc n t Hn).
      destruct (tStatus t), (tStatus t'); done.
    + destruct (step_new _ _ _ _ n Hs Hn) as [Hnone|(ev & _ & Hsome)].
      * by rewrite Hnone in Ht'.
      * rewrite Hsome, Hc in Ht'. by simplify_eq.
  - apply step_cases in Hs. subst st'. simpl in Ht'.
    rewrite list_lookup_fmap in Ht'. destruct (tasks st !! n) as [[ev s]|]; simplify_eq/=.
    by destruct s.
Qed.

Lemma reachable_quiet env db0 st :
  reachable env db0 st → closed st = true → NoneWaiting st.
Proof.
  intros [ss Hr].
  assert (closed (New db0) = true → NoneWaiting (New db0)) as H0 by done.
  revert H0 Hr. generalize (New db0).
  induction ss as [|s ss IH]; intros st0 H0 Hr; simpl in Hr; [by simplify_eq|].
  destruct (step env s st0) as [st1|] eqn:E; simpl in Hr; [|done].
  apply (IH st1); [|done]. by eapply step_quiet.
Qed.

Lemma run_new_closed env ss st st' (n : nat) :
  closed st = true → run env ss st = Some st' → tasks st !! n = None →
  tasks st' !! n = None ∨ ∃ t', tasks st' !! n = Some t' ∧ tStatus t' = Canceled.
Proof.
  revert st. induction ss as [|s ss IH]; intros st Hc Hr Hn; simpl in Hr.
  { simplify_eq. by left. }
  destruct (step env s st) as [st1|] eqn:E; simpl in Hr; [|done].
  assert (closed st1 = true) as Hc1 by by apply (step_exit _ _ _ _ E).
  destruct (step_new _ _ _ _ n E Hn) as [Hnone|(ev & _ & Hsome)]; [by apply (IH st1)|].
  rewrite Hc in Hsome. right.
  destruct (run_Keeps _ _ _ _ Hr n _ Hsome) as (t' & Ht' & _ & Hl).
  exists t'. split; [done|]. simpl in Hl. by destruct (tStatus t').
Qed.

(** X13. Once [Stop] has cancelled the context no goroutine waits any more:
    every waiting one was cancelled, and an event received afterwards is
    registered with a goroutine that is cancelled at once. So no window can
    elapse after [Stop], and under every later schedule the only calls of
    [addValTellor] are those of goroutines that had taken [<-ticker.C]
    before. *)
Theorem stop_lets_no_new_append_begin env db0 st :
  reachable env db0 st → closed st = true →
  NoneWaiting st ∧
  (∀ n, step env (Tick n) st = None) ∧
  ∀ ss st' n, run env ss st = Some st' → appendsOf n st' = 1%nat →
              appendsOf n st = 1%nat ∨ is_Some (taskAt n Elapsed st).
Proof.
  intros Hr Hc. pose proof (reachable_quiet _ _ _ Hr Hc) as Hq. split_and!; [done| |].
  - intros n. unfold step, taskAt.
    destruct (tasks st !! n) as [t|] eqn:Hn; simpl; [|by destruct (loc st)].
    specialize (Hq n t Hn). rewrite decide_False by done. by destruct (loc st).
  - intros ss st' n Hrun H1.
    destruct (extend_Consistent _ _ _ _ _ Hr Hrun) as [Hf' _].
    destruct (reachable_Consistent _ _ _ Hr) as [Hf _].
    rewrite Hf' in H1. rewrite Hf. unfold firedAt in *.
    destruct (tasks st !! n) as [t|] eqn:Hn.
    + destruct (run_Keeps _ _ _ _ Hrun n t Hn) as (t' & Ht' & _ & Hl).
      rewrite Ht' in H1. simpl in *. specialize (Hq n t Hn).
      destruct t as [ev s]. simpl in *. destruct s; try done.
      * by destruct (tStatus t').
      * right. exists ev. by apply taskAt_lookup.
      * by left.
      * by left.
    + destruct (run_new_closed _ _ _ _ n Hc Hrun Hn) as [Hnone|(t' & Ht' & Hcan)].
      * by rewrite Hnone in H1.
      * rewrite Ht' in H1. simpl in H1. by rewrite Hcan in H1.
Qed.

(** *** What [addValTellor] returns and logs *)


(** *** The theorems at concrete runs *)

(** X6 at the goroutine of [E1], from waiting to finished. *)
Lemma goroutines_only_advance_at_E1 :
  run steadyEnv [Tick 0; DoAppend 0; DoRemove 0] (stateAfter steadyEnv oneWaiting) =
    Some (stateAfter steadyEnv (oneWaiting ++ [Tick 0; DoAppend 0; DoRemove 0])) ∧
  tasks (stateAfter steadyEnv oneWaiting) !! 0%nat = Some (mkTask E1 Waiting) ∧
  ∃ t', tasks (stateAfter steadyEnv (oneWaiting ++ [Tick 0; DoAppend 0; DoRemove 0])) !! 0%nat
          = Some t' ∧
        tEvent t' = tEvent (mkTask E1 Waiting) ∧
        later (tStatus (mkTask E1 Waiting)) (tStatus t') = true ∧
        (tStatus (mkTask E1 Waiting) = Canceled → tStatus t' = Canceled) ∧
        (tStatus (mkTask E1 Waiting) = Finished → tStatus t' = Finished).
Proof.
  assert (run steadyEnv [Tick 0; DoAppend 0; DoRemove 0] (stateAfter steadyEnv oneWaiting) =
            Some (stateAfter steadyEnv (oneWaiting ++ [Tick 0; DoAppend 0; DoRemove 0]))) as Hr
    by (vm_compute; reflexivity).
  assert (tasks (stateAfter steadyEnv oneWaiting) !! 0%nat = Some (mkTask E1 Waiting)) as Ht
    by (vm_compute; reflexivity).
  exact (conj Hr (conj Ht (goroutines_only_advance steadyEnv _ _ _ 0%nat _ Hr Ht))).
Defined.

(** X7 at the same run. *)
Lemma store_written_only_by_appends_at_E1 :
  run steadyEnv [Tick 0; DoAppend 0; DoRemove 0] (stateAfter steadyEnv oneWaiting) =
    Some (stateAfter steadyEnv (oneWaiting ++ [Tick 0; DoAppend 0; DoRemove 0])) ∧
  ((∃ new, db (world (stateAfter steadyEnv (oneWaiting ++ [Tick 0; DoAppend 0; DoRemove 0]))) =
             db (world (stateAfter steadyEnv oneWaiting)) ++ new) ∧
   ((∀ n, DoAppend n ∉ [Tick 0; DoAppend 0; DoRemove 0]) →
    db (world (stateAfter steadyEnv (oneWaiting ++ [Tick 0; DoAppend 0; DoRemove 0]))) =
      db (world (stateAfter steadyEnv oneWaiting)) ∧
    history (world (stateAfter steadyEnv (oneWaiting ++ [Tick 0; DoAppend 0; DoRemove 0]))) =
      history (world (stateAfter steadyEnv oneWaiting)) ∧
    appendLog (stateAfter steadyEnv (oneWaiting ++ [Tick 0; DoAppend 0; DoRemove 0])) =
      appendLog (stateAfter steadyEnv oneWaiting))).
Proof.
  assert (run steadyEnv [Tick 0; DoAppend 0; DoRemove 0] (stateAfter steadyEnv oneWaiting) =
            Some (stateAfter steadyEnv (oneWaiting ++ [Tick 0; DoAppend 0; DoRemove 0]))) as Hr
    by (vm_compute; reflexivity).
  exact (conj Hr (store_written_only_by_appends steadyEnv _ _ _ Hr)).
Defined.

(** X8 at the state after a reorganisation. *)
Lemma store_holds_whole_events_after_reorg :
  reachable steadyEnv [] (stateAfter steadyEnv afterReorg) ∧
  ∃ blocks,
    db (world (stateAfter steadyEnv afterReorg)) = [] ++ concat blocks ∧
    WholeEvents (stateAfter steadyEnv afterReorg) blocks ∧
    length blocks = length (appendLog (stateAfter steadyEnv afterReorg)).
Proof.
  assert (reachable steadyEnv [] (stateAfter steadyEnv afterReorg)) as Hr
    by (exists afterReorg; vm_compute; reflexivity).
  exact (conj Hr (store_holds_whole_events steadyEnv [] _ Hr)).
Defined.

(** X9 at [E1], waiting, and its removed notice. *)
Lemma removed_notice_cancels_for_good_at_E1 :
  reachable steadyEnv [] (stateAfter steadyEnv oneWaiting) ∧
  loc (stateAfter steadyEnv oneWaiting) = Selecting ∧
  taskAt 0 Waiting (stateAfter steadyEnv oneWaiting) = Some E1 ∧
  pendingAppend (stateAfter steadyEnv oneWaiting) !! key E1 = Some 0%nat ∧
  Removed (Raw E1removed) = true ∧ key E1removed = key E1 ∧
  ∃ st1, step steadyEnv (Deliver E1removed) (stateAfter steadyEnv oneWaiting) = Some st1 ∧
         taskAt 0 Canceled st1 = Some E1 ∧
         ∀ ss st2, run steadyEnv ss st1 = Some st2 →
                   taskAt 0 Canceled st2 = Some E1 ∧ appendsOf 0 st2 = 0%nat.
Proof.
  assert (reachable steadyEnv [] (stateAfter steadyEnv oneWaiting)) as Hr
    by (exists oneWaiting; vm_compute; reflexivity).
  assert (loc (stateAfter steadyEnv oneWaiting) = Selecting) as Hl by (vm_compute; reflexivity).
  assert (taskAt 0 Waiting (stateAfter steadyEnv oneWaiting) = Some E1) as Ht
    by (vm_compute; reflexivity).
  assert (pendingAppend (stateAfter steadyEnv oneWaiting) !! key E1 = Some 0%nat) as Hp
    by (vm_compute; reflexivity).
  assert (Removed (Raw E1removed) = true) as Hrem by reflexivity.
  assert (key E1removed = key E1) as Hk by reflexivity.
  exact (conj Hr (conj Hl (conj Ht (conj Hp (conj Hrem (conj Hk
           (removed_notice_cancels_for_good steadyEnv [] _ 0%nat E1 E1removed
              Hr Hl Ht Hp Hrem Hk))))))).
Defined.

(** X10 at [E1] received again while its first goroutine is about to
    finish. *)
Lemma finishing_goroutine_cancels_newer_one_at_E1 :
  reachable steadyEnv [] (stateAfter steadyEnv secondArrival) ∧
  taskAt 0 Appended (stateAfter steadyEnv secondArrival) = Some E1 ∧
  pendingAppend (stateAfter steadyEnv secondArrival) !! key E1 = Some 1%nat ∧
  taskAt 1 Waiting (stateAfter steadyEnv secondArrival) = Some E1 ∧
  (key E1 = key E1 ∧
   ∃ st1, step steadyEnv (DoRemove 0) (stateAfter steadyEnv secondArrival) = Some st1 ∧
          taskAt 1 Canceled st1 = Some E1 ∧ pendingAppend st1 !! key E1 = None ∧
          ∀ ss st2, run steadyEnv ss st1 = Some st2 →
                    taskAt 1 Canceled st2 = Some E1 ∧ appendsOf 1 st2 = 0%nat).
Proof.
  assert (reachable steadyEnv [] (stateAfter steadyEnv secondArrival)) as Hr
    by (exists secondArrival; vm_compute; reflexivity).
  assert (taskAt 0 Appended (stateAfter steadyEnv secondArrival) = Some E1) as Hn
    by (vm_compute; reflexivity).
  assert (pendingAppend (stateAfter steadyEnv secondArrival) !! key E1 = Some 1%nat) as Hp
    by (vm_compute; reflexivity).
  assert (taskAt 1 Waiting (stateAfter steadyEnv secondArrival) = Some E1) as Hm
    by (vm_compute; reflexivity).
  exact (conj Hr (conj Hn (conj Hp (conj Hm
           (finishing_goroutine_cancels_newer_one steadyEnv [] _ 0%nat 1%nat E1 E1
              Hr Hn Hp Hm))))).
Defined.


(** X13 at a tracker stopped while [E1] waits and [E2] is past its window. *)
Lemma stop_lets_no_new_append_begin_midway :
  reachable steadyEnv [] (stateAfter steadyEnv stoppedMidway) ∧
  closed (stateAfter steadyEnv stoppedMidway) = true ∧
  (NoneWaiting (stateAfter steadyEnv stoppedMidway) ∧
   (∀ n, step steadyEnv (Tick n) (stateAfter steadyEnv stoppedMidway) = None) ∧
   ∀ ss st' n, run steadyEnv ss (stateAfter steadyEnv stoppedMidway) = Some st' →
               appendsOf n st' = 1%nat →
               appendsOf n (stateAfter steadyEnv stoppedMidway) = 1%nat ∨
               is_Some (taskAt n Elapsed (stateAfter steadyEnv stoppedMidway))).
Proof.
  assert (reachable steadyEnv [] (stateAfter steadyEnv stoppedMidway)) as Hr
    by (exists stoppedMidway; vm_compute; reflexivity).
  assert (closed (stateAfter steadyEnv stoppedMidway) = true) as Hc
    by (vm_compute; reflexivity).
  exact (conj Hr (conj Hc (stop_lets_no_new_append_begin steadyEnv [] _ Hr Hc))).
Defined.

(** After [Stop] in that state the goroutine of [E2] still writes its four
    samples, the one of [E1] never does. *)
Lemma stopped_midway_writes_only_E2 :
  ∃ st, run steadyEnv (stoppedMidway ++ [DoAppend 1; DoRemove 1; CtxDone]) (New []) = Some st ∧
        tasks st = [mkTask E1 Canceled; mkTask E2 Finished] ∧
        length (db (world st)) = 4%nat ∧ loc st = Exited ∧
        step steadyEnv (Tick 0) st = None ∧ step steadyEnv (DoAppend 0) st = None.
Proof.
  eexists.
  split; [evaluated|].
  split; [evaluated|].
  split; [evaluated|].
  split; [evaluated|].
  split; [evaluated|].
  evaluated.
Qed.

End DisputeExtra.

(** ** The dispute tracker: which events are appended *)

Module SurvivalFacts.
Import GoLib Dispute DisputeFacts DisputeExtra.

Lemma taskAt_inj n s s' st ev ev' :
  taskAt n s st = Some ev → taskAt n s' st = Some ev' → s = s' ∧ ev = ev'.
Proof. intros H1%taskAt_Some H2%taskAt_Some. rewrite H1 in H2. by simplify_eq. Qed.

Lemma taskAt_tasks n s st st' ev :
  tasks st' = tasks st → taskAt n s st = Some ev → taskAt n s st' = Some ev.
Proof. unfold taskAt. by intros ->. Qed.

Lemma taskAt_setStatus_ne n m s s' st ev :
  m ≠ n → taskAt n s st = Some ev → taskAt n s (setStatus m s' st) = Some ev.
Proof.
  intros Hne H%taskAt_Some. apply taskAt_lookup. simpl.
  by rewrite list_lookup_alter_ne.
Qed.

Lemma taskAt_snoc n s st ev (t : Task) :
  taskAt n s st = Some ev → (tasks st ++ [t]) !! n = Some (mkTask ev s).
Proof.
  intros H%taskAt_Some. rewrite lookup_app_l; [done|]. by eapply lookup_lt_Some.
Qed.

Lemma taskAt_Stop n s st ev :
  s ≠ Waiting → taskAt n s st = Some ev → taskAt n s (Stop st) = Some ev.
Proof.
  intros Hs H%taskAt_Some. apply taskAt_lookup. simpl.
  rewrite list_lookup_fmap, H. simpl. by destruct s.
Qed.

Lemma taskAt_receive n s st ev notice :
  s ≠ Waiting → taskAt n s st = Some ev → taskAt n s (receive notice st) = Some ev.
Proof.
  intros Hs H. unfold receive.
  set (st1 := if Removed (Raw notice) then removePending notice st else st).
  assert (taskAt n s st1 = Some ev) as H1.
  { subst st1. destruct (Removed (Raw notice)); [by apply taskAt_removePending|done]. }
  apply taskAt_lookup. simpl. by apply taskAt_snoc.
Qed.

Lemma appendsOf_status n s st ev :
  Consistent st → taskAt n s st = Some ev → appendsOf n st = fired s.
Proof.
  intros [H _] Ht%taskAt_Some. rewrite H. unfold firedAt. by rewrite Ht.
Qed.

Lemma own_step_enabled env n st ev :
  (taskAt n Waiting st = Some ev → is_Some (step env (Tick n) st)) ∧
  (taskAt n Elapsed st = Some ev → is_Some (step env (DoAppend n) st)) ∧
  (taskAt n Appended st = Some ev → is_Some (step env (DoRemove n) st)).
Proof.
  split_and!; intros H; unfold step; rewrite H; by destruct (loc st).
Qed.

(** A step of anybody else leaves a goroutine that is past its [select]
    where it is. *)
Lemma step_other env s st st' n sts ev :
  step env s st = Some st' → taskAt n sts st = Some ev → sts ≠ Waiting →
  s ≠ DoAppend n → s ≠ DoRemove n → taskAt n sts st' = Some ev.
Proof.
  intros Hs Ht Hw Ha Hr. pose proof (step_cases _ _ _ _ Hs) as Hc.
  destruct s as [err|err| |notice|m|m|m|].
  - destruct Hc as (Htasks & _). by eapply taskAt_tasks.
  - destruct Hc as (Htasks & _). by eapply taskAt_tasks.
  - destruct Hc as (Htasks & _). by eapply taskAt_tasks.
  - destruct Hc as [_ ->]. by apply taskAt_receive.
  - destruct Hc as (e & Hm & ->). apply taskAt_setStatus_ne; [|done].
    intros ->. by destruct (taskAt_inj _ _ _ _ _ _ Ht Hm).
  - destruct Hc as (e & Hm & ->). apply taskAt_setStatus_ne; [congruence|].
    by apply taskAt_fire.
  - destruct Hc as (e & Hm & ->). apply taskAt_setStatus_ne; [congruence|].
    by apply taskAt_removePending.
  - subst st'. by apply taskAt_Stop.
Qed.

Lemma is_DoAppend s n : s = DoAppend n ∨ s ≠ DoAppend n.
Proof.
  destruct s as [| | | |m|m|m|]; try (right; congruence).
  destruct (decide (m = n)) as [->|]; [by left|right; congruence].
Qed.

Lemma is_DoRemove s n : s = DoRemove n ∨ s ≠ DoRemove n.
Proof.
  destruct s as [| | | |m|m|m|]; try (right; congruence).
  destruct (decide (m = n)) as [->|]; [by left|right; congruence].
Qed.

Lemma is_Tick s n : s = Tick n ∨ s ≠ Tick n.
Proof.
  destruct s as [| | | |m|m|m|]; try (right; congruence).
  destruct (decide (m = n)) as [->|]; [by left|right; congruence].
Qed.

(** The steps of a goroutine past its window. *)
Lemma step_Elapsed env s st st' n ev :
  step env s st = Some st' → taskAt n Elapsed st = Some ev →
  (taskAt n Elapsed st' = Some ev ∧ s ≠ DoAppend n ∧ s ≠ Tick n) ∨
  (s = DoAppend n ∧ taskAt n Appended st' = Some ev).
Proof.
  intros Hs Ht. destruct (is_DoAppend s n) as [->|Hne].
  - right. split; [done|].
    destruct (step_cases _ _ _ _ Hs) as (e & He & ->).
    destruct (taskAt_inj _ _ _ _ _ _ Ht He) as [_ <-].
    apply (taskAt_setStatus n Elapsed). by apply taskAt_fire.
  - left. split_and!; [|done|].
    + apply (step_other env s st st' n Elapsed ev Hs Ht); [done|done|].
      intros ->. destruct (step_cases _ _ _ _ Hs) as (e & He & _).
      by destruct (taskAt_inj _ _ _ _ _ _ Ht He).
    + intros ->. destruct (step_cases _ _ _ _ Hs) as (e & He & _).
      by destruct (taskAt_inj _ _ _ _ _ _ Ht He).
Qed.

Lemma step_Appended env s st st' n ev :
  step env s st = Some st' → taskAt n Appended st = Some ev →
  (taskAt n Appended st' = Some ev ∧ s ≠ DoRemove n) ∨
  (s = DoRemove n ∧ taskAt n Finished st' = Some ev ∧
   pendingAppend st' !! key ev = None).
Proof.
  intros Hs Ht. destruct (is_DoRemove s n) as [->|Hne].
  - right. split; [done|].
    destruct (step_cases _ _ _ _ Hs) as (e & He & ->).
    destruct (taskAt_inj _ _ _ _ _ _ Ht He) as [_ <-]. split.
    + apply (taskAt_setStatus n Appended). by apply taskAt_removePending.
    + apply pending_removePending.
  - left. split; [|done].
    apply (step_other env s st st' n Appended ev Hs Ht); [done| |done].
    intros ->. destruct (step_cases _ _ _ _ Hs) as (e & He & _).
    by destruct (taskAt_inj _ _ _ _ _ _ Ht He).
Qed.

Lemma step_stays_Canceled env s st st' n ev :
  step env s st = Some st' → taskAt n Canceled st = Some ev →
  taskAt n Canceled st' = Some ev ∧ s ≠ Tick n.
Proof.
  intros Hs Ht. split.
  - destruct (taskAt_Keeps n Canceled (tasks st) st st' ev eq_refl
                (step_Keeps _ _ _ _ Hs) Ht) as (s' & H' & Hl).
    by destruct s'.
  - intros ->. destruct (step_cases _ _ _ _ Hs) as (e & He & _).
    by destruct (taskAt_inj _ _ _ _ _ _ Ht He).
Qed.

(** [removePending] and a goroutine that waits: it is cancelled when the
    entry of the hash names it, and only then; the hash is then its own. *)
Lemma removePending_Waiting notice st n ev :
  Consistent st → taskAt n Waiting st = Some ev →
  taskAt n Waiting (removePending notice st) = Some ev ∨
  (taskAt n Canceled (removePending notice st) = Some ev ∧
   key notice = key ev ∧ pendingAppend st !! key ev = Some n).
Proof.
  intros [_ Hp] Ht. pose proof (taskAt_Some _ _ _ _ Ht) as Hl.
  unfold removePending. destruct (pendingAppend st !! key notice) as [c|] eqn:E.
  - destruct (decide (c = n)) as [->|Hne].
    + right. destruct (Hp _ _ E) as (t & Ht' & Hk).
      rewrite Hl in Ht'. injection Ht' as <-. cbn [tEvent] in Hk.
      split; [|split; [done|by rewrite Hk]].
      apply taskAt_lookup. simpl. by rewrite list_lookup_alter_eq, Hl.
    + left. apply taskAt_lookup. simpl. by rewrite list_lookup_alter_ne.
  - left. by eapply taskAt_tasks.
Qed.

(** The steps of a goroutine that waits: its window elapses, or it is
    cancelled, by [Stop] or by a [removePending] for its hash. *)
Lemma step_Waiting env s st st' n ev :
  Consistent st → step env s st = Some st' → taskAt n Waiting st = Some ev →
  (taskAt n Waiting st' = Some ev ∧ s ≠ Tick n) ∨
  (s = Tick n ∧ taskAt n Elapsed st' = Some ev) ∨
  (taskAt n Canceled st' = Some ev ∧ s ≠ Tick n ∧ CancelledBy s st n ev).
Proof.
  intros Hc Hs Ht. pose proof (step_cases _ _ _ _ Hs) as Hcase.
  destruct s as [err|err| |notice|m|m|m|].
  - destruct Hcase as (Htasks & _). left. split; [by eapply taskAt_tasks|done].
  - destruct Hcase as (Htasks & _). left. split; [by eapply taskAt_tasks|done].
  - destruct Hcase as (Htasks & _). left. split; [by eapply taskAt_tasks|done].
  - destruct Hcase as [_ ->]. unfold receive.
    destruct (Removed (Raw notice)) eqn:Hrem.
    + destruct (removePending_Waiting notice st n ev Hc Ht) as [H|(H & Hk & Hn)].
      * left. split; [|done]. apply taskAt_lookup. simpl. by apply taskAt_snoc.
      * right. right. split; [|split; [done|]].
        -- apply taskAt_lookup. simpl. by apply taskAt_snoc.
        -- right. left. by exists notice.
    + left. split; [|done]. apply taskAt_lookup. simpl. by apply taskAt_snoc.
  - destruct Hcase as (e & Hm & ->). destruct (decide (m = n)) as [->|Hne].
    + right. left. split; [done|]. by apply (taskAt_setStatus n Waiting).
    + left. split; [by apply taskAt_setStatus_ne|congruence].
  - destruct Hcase as (e & Hm & ->). left. split; [|done].
    apply taskAt_setStatus_ne; [|by apply taskAt_fire].
    intros ->. by destruct (taskAt_inj _ _ _ _ _ _ Ht Hm).
  - destruct Hcase as (e & Hm & ->).
    assert (m ≠ n) as Hne.
    { intros ->. by destruct (taskAt_inj _ _ _ _ _ _ Ht Hm). }
    destruct (removePending_Waiting e st n ev Hc Ht) as [H|(H & Hk & Hn)].
    + left. split; [by apply taskAt_setStatus_ne|done].
    + right. right. split; [by apply taskAt_setStatus_ne|]. split; [done|].
      right. right. by exists m, e.
  - subst st'. right. right. split; [|split; [done|by left]].
    apply taskAt_lookup. simpl. by rewrite list_lookup_fmap, (taskAt_Some _ _ _ _ Ht).
Qed.

(** A run stays where [P] holds, or leaves it at a first step. *)
Lemma run_split env (P : Tracker → Prop) (R : Step → Prop)
    (Q : Step → Tracker → Tracker → Prop) :
  (∀ s st1 st2, step env s st1 = Some st2 → P st1 → (P st2 ∧ R s) ∨ Q s st1 st2) →
  ∀ ss st st', P st → run env ss st = Some st' →
    (P st' ∧ Forall R ss) ∨
    ∃ ss1 s ss2 st1 st2,
      ss = ss1 ++ s :: ss2 ∧ Forall R ss1 ∧ run env ss1 st = Some st1 ∧ P st1 ∧
      step env s st1 = Some st2 ∧ Q s st1 st2 ∧ run env ss2 st2 = Some st'.
Proof.
  intros Hstep ss. induction ss as [|s ss IH]; intros st st' HP Hrun.
  - left. simpl in Hrun. by simplify_eq.
  - cbn [run] in Hrun. destruct (step env s st) as [st1|] eqn:Hs; [|done].
    cbn [mbind option_bind] in Hrun.
    destruct (Hstep _ _ _ Hs HP) as [[HP1 HR]|HQ].
    + destruct (IH _ _ HP1 Hrun) as [[HP' HF]|(ss1 & s' & ss2 & st2 & st3 & -> & HF & Hr1 & HP2 & Hs' & HQ & Hr2)].
      * left. split; [done|by constructor].
      * right. exists (s :: ss1), s', ss2, st2, st3.
        split; [done|]. split; [by constructor|]. split; [|done].
        cbn [run]. rewrite Hs. done.
    + right. exists [], s, ss, st, st1. split; [done|]. split; [constructor|]. done.
Qed.

Lemma Forall_not_elem (s : Step) (ss : list Step) :
  Forall (λ s', s' ≠ s) ss ↔ s ∉ ss.
Proof.
  rewrite Forall_forall. split.
  - intros H Hin. by apply (H s Hin).
  - intros H s' Hin ->. done.
Qed.

(** A cancelled goroutine stays cancelled, and its window never elapses. *)
Lemma run_Canceled env ss st st' n ev :
  taskAt n Canceled st = Some ev → run env ss st = Some st' →
  taskAt n Canceled st' = Some ev ∧ Tick n ∉ ss.
Proof.
  intros Ht Hrun.
  destruct (run_split env (λ st, taskAt n Canceled st = Some ev) (λ s, s ≠ Tick n)
              (λ _ _ _, False)) with (ss := ss) (st := st) (st' := st')
    as [[H HF]|(? & ? & ? & ? & ? & _ & _ & _ & _ & _ & [] & _)]; [|done|done|].
  - intros s st1 st2 Hs H1. left. by eapply step_stays_Canceled.
  - split; [done|]. by apply Forall_not_elem.
Qed.

Lemma run_Finished env ss st st' n ev :
  taskAt n Finished st = Some ev → run env ss st = Some st' →
  taskAt n Finished st' = Some ev.
Proof.
  intros Ht Hrun.
  destruct (taskAt_Keeps n Finished (tasks st) st st' ev eq_refl
              (run_Keeps _ _ _ _ Hrun) Ht) as (s' & H' & Hl).
  by destruct s'.
Qed.

(** A goroutine that waits, under any schedule. *)
Lemma run_Waiting env ss st st' n ev :
  Consistent st → taskAt n Waiting st = Some ev → run env ss st = Some st' →
  (taskAt n Waiting st' = Some ev ∧ (Tick n ∉ ss)) ∨
  (taskAt n Canceled st' = Some ev ∧ (Tick n ∉ ss) ∧
   ∃ ss1 s ss2 st1, ss = ss1 ++ s :: ss2 ∧ run env ss1 st = Some st1 ∧
                    taskAt n Waiting st1 = Some ev ∧ CancelledBy s st1 n ev) ∨
  (∃ ss1 ss2 st1 st2, ss = ss1 ++ Tick n :: ss2 ∧ run env ss1 st = Some st1 ∧
                      step env (Tick n) st1 = Some st2 ∧
                      taskAt n Elapsed st2 = Some ev ∧ run env ss2 st2 = Some st').
Proof.
  intros Hc Ht Hrun.
  destruct (run_split env (λ st, Consistent st ∧ taskAt n Waiting st = Some ev)
              (λ s, s ≠ Tick n)
              (λ s st1 st2,
                 (s = Tick n ∧ taskAt n Elapsed st2 = Some ev) ∨
                 (taskAt n Canceled st2 = Some ev ∧ s ≠ Tick n ∧ CancelledBy s st1 n ev)))
    with (ss := ss) (st := st) (st' := st')
    as [[[_ H] HF]|(ss1 & s & ss2 & st1 & st2 & -> & HF & Hr1 & [Hc1 Hw1] & Hs & HQ & Hr2)];
    [|done|done| |].
  - intros s st1 st2 Hs [Hc1 Hw1].
    destruct (step_Waiting _ _ _ _ _ _ Hc1 Hs Hw1) as [[H Hne]|H]; [|by right].
    left. split; [|done]. split; [|done]. by eapply step_Consistent.
  - left. split; [done|]. by apply Forall_not_elem.
  - destruct HQ as [[-> He]|(Hcan & Hne & Hby)].
    + right. right. by exists ss1, ss2, st1, st2.
    + right. left. destruct (run_Canceled _ _ _ _ _ _ Hcan Hr2) as [Hcan' Hno].
      split; [done|]. split.
      * rewrite elem_of_app, elem_of_cons. apply Forall_not_elem in HF.
        intros [?|[?|?]]; [done|congruence|done].
      * by exists ss1, s, ss2, st1.
Qed.

(** A goroutine past its window, under any schedule. *)
Lemma run_Elapsed env ss st st' n ev :
  taskAt n Elapsed st = Some ev → run env ss st = Some st' →
  taskAt n Elapsed st' = Some ev ∨
  ∃ ss1 ss2 st1 st2, ss = ss1 ++ DoAppend n :: ss2 ∧ run env ss1 st = Some st1 ∧
                     taskAt n Elapsed st1 = Some ev ∧
                     step env (DoAppend n) st1 = Some st2 ∧
                     taskAt n Appended st2 = Some ev ∧ run env ss2 st2 = Some st'.
Proof.
  intros Ht Hrun.
  destruct (run_split env (λ st, taskAt n Elapsed st = Some ev) (λ _, True)
              (λ s _ st2, s = DoAppend n ∧ taskAt n Appended st2 = Some ev))
    with (ss := ss) (st := st) (st' := st')
    as [[H _]|(ss1 & s & ss2 & st1 & st2 & -> & _ & Hr1 & H1 & Hs & [-> H2] & Hr2)];
    [|done|done|by left|].
  - intros s st1 st2 Hs H1.
    destruct (step_Elapsed _ _ _ _ _ _ Hs H1) as [(H & _)|H]; [by left|by right].
  - right. by exists ss1, ss2, st1, st2.
Qed.

(** A goroutine that has appended, under any schedule. *)
Lemma run_Appended env ss st st' n ev :
  taskAt n Appended st = Some ev → run env ss st = Some st' →
  taskAt n Appended st' = Some ev ∨
  (taskAt n Finished st' = Some ev ∧
   ∃ ss1 ss2 st1 st2, ss = ss1 ++ DoRemove n :: ss2 ∧ run env ss1 st = Some st1 ∧
                      step env (DoRemove n) st1 = Some st2 ∧
                      run env ss2 st2 = Some st' ∧
                      pendingAppend st2 !! key ev = None).
Proof.
  intros Ht Hrun.
  destruct (run_split env (λ st, taskAt n Appended st = Some ev) (λ _, True)
              (λ s _ st2, s = DoRemove n ∧ taskAt n Finished st2 = Some ev ∧
                          pendingAppend st2 !! key ev = None))
    with (ss := ss) (st := st) (st' := st')
    as [[H _]|(ss1 & s & ss2 & st1 & st2 & -> & _ & Hr1 & H1 & Hs & (-> & H2 & Hp) & Hr2)];
    [|done|done|by left|].
  - intros s st1 st2 Hs H1.
    destruct (step_Appended _ _ _ _ _ _ Hs H1) as [(H & _)|H]; [by left|by right].
  - right. split; [by eapply run_Finished|]. by exists ss1, ss2, st1, st2.
Qed.

(** What the call of [addValTellor] by the goroutine [n] of [event] writes. *)
Lemma append_step env st1 st2 n event :
  taskAt n Elapsed st1 = Some event → step env (DoAppend n) st1 = Some st2 →
  ∃ b, db (world st2) = db (world st1) ++ b ∧ WholeEvent event b ∧
       (NoFaults env →
        ∃ rows,
          length rows = length (Values event) ∧
          b = samplesOf (Miner event) (Values event) rows ∧
          length b = (2 * length (Values event))%nat ∧
          history (world st2) =
            history (world st1) ++
            CAppender :: callsOf (Miner event) (Values event) rows ++ [CCommit None] ∧
          Answered env (history (world st1) ++ [CAppender])
                   (callsOf (Miner event) (Values event) rows)).
Proof.
  intros Ht Hs.
  destruct (step_frame _ _ _ _ Hs) as (e & He & _ & Hdb & Hh).
  destruct (taskAt_inj _ _ _ _ _ _ Ht He) as [_ <-].
  destruct (addValTellor_block env event (world st1)) as (b & Hb & Hw & _).
  exists b. rewrite Hdb. split; [done|]. split; [done|].
  intros Hnf.
  destruct (addValTellor_ok env event (world st1) Hnf) as (rows & Hlen & _ & Hdb' & Hh' & Ha).
  exists rows. rewrite Hh.
  assert (b = samplesOf (Miner event) (Values event) rows) as ->.
  { rewrite Hb in Hdb'. by apply app_inv_head in Hdb'. }
  split; [done|]. split; [done|]. split; [by apply samplesOf_length|]. done.
Qed.

(** C5, as the code has it. A goroutine that waits for the window of its
    event can always take [<-ticker.C]. Under every schedule it is then in
    one of four situations. It still waits. It was cancelled while it
    waited, by [Stop] or by a [removePending] for its hash while the entry
    named it, and has not appended. Its window has elapsed and the call of
    [addValTellor] is its next step. Or it has called [addValTellor], exactly
    once: that call wrote nothing or the two samples of every observation,
    and, when the store and the reference provider do not fail, exactly the
    oracle sample and the reference sample of each observation, the latter
    holding what the provider answered for the same id at the time read then
    minus [reorgEventWait]; its next step is [removePending], and right after
    that step the pending map has no entry for the hash of the event. Once
    the window has elapsed nothing cancels the goroutine. *)
Theorem surviving_event_appended env db0 st ss st' n event :
  reachable env db0 st → taskAt n Waiting st = Some event →
  run env ss st = Some st' →
  appendsOf n st = 0%nat ∧ is_Some (step env (Tick n) st) ∧
  ((taskAt n Waiting st' = Some event ∧ (Tick n ∉ ss) ∧ appendsOf n st' = 0%nat ∧
    is_Some (step env (Tick n) st')) ∨
   (taskAt n Canceled st' = Some event ∧ (Tick n ∉ ss) ∧ appendsOf n st' = 0%nat ∧
    ∃ ss1 s ss2 st1,
      ss = ss1 ++ s :: ss2 ∧ run env ss1 st = Some st1 ∧
      taskAt n Waiting st1 = Some event ∧ CancelledBy s st1 n event) ∨
   (Tick n ∈ ss ∧ taskAt n Elapsed st' = Some event ∧ appendsOf n st' = 0%nat ∧
    is_Some (step env (DoAppend n) st')) ∨
   (Tick n ∈ ss ∧ appendsOf n st' = 1%nat ∧
    ∃ ss1 ss2 st1 st2 b,
      ss = ss1 ++ DoAppend n :: ss2 ∧ run env ss1 st = Some st1 ∧
      step env (DoAppend n) st1 = Some st2 ∧ run env ss2 st2 = Some st' ∧
      db (world st2) = db (world st1) ++ b ∧ WholeEvent event b ∧
      (NoFaults env →
       ∃ rows,
         length rows = length (Values event) ∧
         b = samplesOf (Miner event) (Values event) rows ∧
         length b = (2 * length (Values event))%nat ∧
         history (world st2) =
           history (world st1) ++
           CAppender :: callsOf (Miner event) (Values event) rows ++ [CCommit None] ∧
         Answered env (history (world st1) ++ [CAppender])
                  (callsOf (Miner event) (Values event) rows)) ∧
      ((taskAt n Appended st' = Some event ∧ is_Some (step env (DoRemove n) st')) ∨
       (taskAt n Finished st' = Some event ∧
        ∃ ss3 ss4 st3 st4,
          ss2 = ss3 ++ DoRemove n :: ss4 ∧ run env ss3 st2 = Some st3 ∧
          step env (DoRemove n) st3 = Some st4 ∧ run env ss4 st4 = Some st' ∧
          pendingAppend st4 !! key event = None)))).
Proof.
  intros Hr Ht Hrun.
  pose proof (reachable_Consistent _ _ _ Hr) as Hc.
  pose proof (extend_Consistent _ _ _ _ _ Hr Hrun) as Hc'.
  split; [by rewrite (appendsOf_status _ _ _ _ Hc Ht)|].
  split; [by eapply own_step_enabled|].
  destruct (run_Waiting _ _ _ _ _ _ Hc Ht Hrun)
    as [[Hw Hno]|[(Hcan & Hno & Hby)|(ss0 & ssE & st0 & stE & -> & Hr0 & Hs0 & HE & HrE)]].
  { left. split; [done|]. split; [done|].
    split; [by rewrite (appendsOf_status _ _ _ _ Hc' Hw)|by eapply own_step_enabled]. }
  { right. left. split; [done|]. split; [done|].
    split; [by rewrite (appendsOf_status _ _ _ _ Hc' Hcan)|done]. }
  right. right.
  assert (Tick n ∈ ss0 ++ Tick n :: ssE) as Hin.
  { rewrite elem_of_app, elem_of_cons. auto. }
  destruct (run_Elapsed _ _ _ _ _ _ HE HrE)
    as [He|(ssA & ss2 & st1 & st2 & -> & HrA & H1 & Hs1 & H2 & Hr2)].
  { left. split; [done|]. split; [done|].
    split; [by rewrite (appendsOf_status _ _ _ _ Hc' He)|by eapply own_step_enabled]. }
  right. split; [done|].
  assert (run env (ss0 ++ Tick n :: ssA) st = Some st1) as Hr1.
  { rewrite run_app, Hr0. cbn [mbind option_bind run]. rewrite Hs0. done. }
  destruct (append_step _ _ _ _ _ H1 Hs1) as (b & Hdb & Hwhole & Hnf).
  destruct (run_Appended _ _ _ _ _ _ H2 Hr2)
    as [Ha|(Hf & ss3 & ss4 & st3 & st4 & -> & Hr3 & Hs3 & Hr4 & Hp)].
  - split; [by rewrite (appendsOf_status _ _ _ _ Hc' Ha)|].
    exists (ss0 ++ Tick n :: ssA), ss2, st1, st2, b.
    split; [by rewrite <-app_assoc|]. split; [done|]. split; [done|]. split; [done|].
    split; [done|]. split; [done|]. split; [done|].
    left. split; [done|by eapply own_step_enabled].
  - split; [by rewrite (appendsOf_status _ _ _ _ Hc' Hf)|].
    exists (ss0 ++ Tick n :: ssA), (ss3 ++ DoRemove n :: ss4), st1, st2, b.
    split; [by rewrite <-app_assoc|]. split; [done|]. split; [done|]. split; [done|].
    split; [done|]. split; [done|]. split; [done|].
    right. split; [done|]. by exists ss3, ss4, st3, st4.
Qed.

(** C5, as stated, fails: [E1] is received twice and no removed notice
    arrives; the first goroutine appends and its [removePending] cancels the
    second, which is never appended, however the run goes on. *)
Lemma unremoved_event_never_appended : ¬ SurvivorsAppended steadyEnv [].
Proof.
  intros H.
  destruct (H sameHashTwice (stateAfter steadyEnv sameHashTwice) 1%nat E1)
    as (ss' & st' & _ & _ & _ & Hrun & Hone & _);
    [evaluated|evaluated|evaluated|].
  assert (Consistent (stateAfter steadyEnv sameHashTwice)) as Hc.
  { apply (reachable_Consistent steadyEnv []). exists sameHashTwice. evaluated. }
  assert (taskAt 1 Canceled (stateAfter steadyEnv sameHashTwice) = Some E1) as Ht
    by evaluated.
  destruct (Canceled_for_good _ _ _ _ _ _ Hc Ht Hrun) as [_ Hzero].
  rewrite Hzero in Hone. discriminate.
Qed.

(** C5 at the event [E1], received and waiting, and the schedule in which
    its goroutine runs to its end. *)
Lemma surviving_event_appended_at_E1 :
  reachable steadyEnv [] (stateAfter steadyEnv oneWaiting) ∧
  taskAt 0 Waiting (stateAfter steadyEnv oneWaiting) = Some E1 ∧
  run steadyEnv [Tick 0; DoAppend 0; DoRemove 0] (stateAfter steadyEnv oneWaiting) =
    Some (stateAfter steadyEnv (oneWaiting ++ [Tick 0; DoAppend 0; DoRemove 0])) ∧
  (appendsOf 0 (stateAfter steadyEnv oneWaiting) = 0%nat ∧
   is_Some (step steadyEnv (Tick 0) (stateAfter steadyEnv oneWaiting)) ∧
   ((taskAt 0 Waiting (stateAfter steadyEnv (oneWaiting ++ [Tick 0; DoAppend 0; DoRemove 0]))
       = Some E1 ∧
     (Tick 0 ∉ [Tick 0; DoAppend 0; DoRemove 0]) ∧
     appendsOf 0 (stateAfter steadyEnv (oneWaiting ++ [Tick 0; DoAppend 0; DoRemove 0]))
       = 0%nat ∧
     is_Some (step steadyEnv (Tick 0)
                (stateAfter steadyEnv (oneWaiting ++ [Tick 0; DoAppend 0; DoRemove 0])))) ∨
    (taskAt 0 Canceled (stateAfter steadyEnv (oneWaiting ++ [Tick 0; DoAppend 0; DoRemove 0]))
       = Some E1 ∧
     (Tick 0 ∉ [Tick 0; DoAppend 0; DoRemove 0]) ∧
     appendsOf 0 (stateAfter steadyEnv (oneWaiting ++ [Tick 0; DoAppend 0; DoRemove 0]))
       = 0%nat ∧
     ∃ ss1 s ss2 st1,
       [Tick 0; DoAppend 0; DoRemove 0] = ss1 ++ s :: ss2 ∧
       run steadyEnv ss1 (stateAfter steadyEnv oneWaiting) = Some st1 ∧
       taskAt 0 Waiting st1 = Some E1 ∧ CancelledBy s st1 0 E1) ∨
    (Tick 0 ∈ [Tick 0; DoAppend 0; DoRemove 0] ∧
     taskAt 0 Elapsed (stateAfter steadyEnv (oneWaiting ++ [Tick 0; DoAppend 0; DoRemove 0]))
       = Some E1 ∧
     appendsOf 0 (stateAfter steadyEnv (oneWaiting ++ [Tick 0; DoAppend 0; DoRemove 0]))
       = 0%nat ∧
     is_Some (step steadyEnv (DoAppend 0)
                (stateAfter steadyEnv (oneWaiting ++ [Tick 0; DoAppend 0; DoRemove 0])))) ∨
    (Tick 0 ∈ [Tick 0; DoAppend 0; DoRemove 0] ∧
     appendsOf 0 (stateAfter steadyEnv (oneWaiting ++ [Tick 0; DoAppend 0; DoRemove 0]))
       = 1%nat ∧
     ∃ ss1 ss2 st1 st2 b,
       [Tick 0; DoAppend 0; DoRemove 0] = ss1 ++ DoAppend 0 :: ss2 ∧
       run steadyEnv ss1 (stateAfter steadyEnv oneWaiting) = Some st1 ∧
       step steadyEnv (DoAppend 0) st1 = Some st2 ∧
       run steadyEnv ss2 st2 =
         Some (stateAfter steadyEnv (oneWaiting ++ [Tick 0; DoAppend 0; DoRemove 0])) ∧
       db (world st2) = db (world st1) ++ b ∧ WholeEvent E1 b ∧
       (NoFaults steadyEnv →
        ∃ rows,
          length rows = length (Values E1) ∧
          b = samplesOf (Miner E1) (Values E1) rows ∧
          length b = (2 * length (Values E1))%nat ∧
          history (world st2) =
            history (world st1) ++
            CAppender :: callsOf (Miner E1) (Values E1) rows ++ [CCommit None] ∧
          Answered steadyEnv (history (world st1) ++ [CAppender])
                   (callsOf (Miner E1) (Values E1) rows)) ∧
       ((taskAt 0 Appended
           (stateAfter steadyEnv (oneWaiting ++ [Tick 0; DoAppend 0; DoRemove 0])) = Some E1 ∧
         is_Some (step steadyEnv (DoRemove 0)
                    (stateAfter steadyEnv (oneWaiting ++ [Tick 0; DoAppend 0; DoRemove 0])))) ∨
        (taskAt 0 Finished
           (stateAfter steadyEnv (oneWaiting ++ [Tick 0; DoAppend 0; DoRemove 0])) = Some E1 ∧
         ∃ ss3 ss4 st3 st4,
           ss2 = ss3 ++ DoRemove 0 :: ss4 ∧ run steadyEnv ss3 st2 = Some st3 ∧
           step steadyEnv (DoRemove 0) st3 = Some st4 ∧
           run steadyEnv ss4 st4 =
             Some (stateAfter steadyEnv (oneWaiting ++ [Tick 0; DoAppend 0; DoRemove 0])) ∧
           pendingAppend st4 !! key E1 = None))))).
Proof.
  assert (reachable steadyEnv [] (stateAfter steadyEnv oneWaiting)) as Hr
    by (exists oneWaiting; vm_compute; reflexivity).
  assert (taskAt 0 Waiting (stateAfter steadyEnv oneWaiting) = Some E1) as Ht
    by (vm_compute; reflexivity).
  assert (run steadyEnv [Tick 0; DoAppend 0; DoRemove 0] (stateAfter steadyEnv oneWaiting) =
            Some (stateAfter steadyEnv (oneWaiting ++ [Tick 0; DoAppend 0; DoRemove 0]))) as Hrun
    by (vm_compute; reflexivity).
  exact (conj Hr (conj Ht (conj Hrun
           (surviving_event_appended steadyEnv [] _ _ _ 0%nat E1 Hr Ht Hrun)))).
Defined.

(** The two runs side by side: [E1] received once is written and its entry
    deleted; received twice, it is written once, by the first goroutine, and
    the second goroutine ends cancelled. *)
Lemma one_arrival_and_two :
  tasks (stateAfter steadyEnv (oneWaiting ++ [Tick 0; DoAppend 0; DoRemove 0])) =
    [mkTask E1 Finished] ∧
  length (db (world (stateAfter steadyEnv (oneWaiting ++ [Tick 0; DoAppend 0; DoRemove 0])))) =
    2%nat ∧
  run steadyEnv sameHashTwice (New []) = Some (stateAfter steadyEnv sameHashTwice) ∧
  forallb undisturbed sameHashTwice = true ∧
  tasks (stateAfter steadyEnv sameHashTwice) = [mkTask E1 Finished; mkTask E1 Canceled] ∧
  appendLog (stateAfter steadyEnv sameHashTwice) = [0%nat] ∧
  length (db (world (stateAfter steadyEnv sameHashTwice))) = 2%nat ∧
  step steadyEnv (Tick 1) (stateAfter steadyEnv sameHashTwice) = None.
Proof.
  split; [evaluated|].
  split; [evaluated|].
  split; [evaluated|].
  split; [evaluated|].
  split; [evaluated|].
  split; [evaluated|].
  split; [evaluated|].
  evaluated.
Qed.

End SurvivalFacts.
